(** * Ghost-exchange set-up of [cuda/test_scatterer.py]

    A shallow embedding of the part of the script that groups the ghost
    degrees of freedom of a DOLFINx index map by owning rank, groups the
    owned degrees of freedom by destination rank, exchanges the global
    indices with MPI and converts them to local slots, together with the
    CUDA kernel [copy_range].

    Arrays are lists; ranks and global indices are integers ([Z]); slot
    numbers, counts and offsets are naturals (they are bounded by the
    length of an array).  Operations that raise in Python on an index out
    of range return [None].

    The integer parts of [demo_linear.py] follow: the table of quadrature
    degrees, the selection of the boundary facets by tag, the evaluation
    points on the facets of the reference hexahedron and the degrees of
    freedom of the boundary facets. *)

From stdpp Require Import base option list sorting gmap.
From Stdlib Require Import ZArith Lia.

(** ** NumPy primitives used by the script *)

Module Np.

(** [np.sort]: the sorted array is the same whichever algorithm NumPy
    picks, so any sorting function is a faithful model of its value. *)
Definition sort (a : list Z) : list Z := merge_sort Z.le a.

(** Runs of equal neighbours of an array, with their lengths. *)
Fixpoint runs (a : list Z) : list (Z * nat) :=
  match a with
  | [] => []
  | x :: a' =>
      match runs a' with
      | (y, c) :: r => if decide (x = y) then (y, S c) :: r
                       else (x, 1) :: (y, c) :: r
      | [] => [(x, 1)]
      end
  end.

(** [np.unique(a, return_counts=True)]: sort, then keep the first element
    of every run and the length of the run. *)
Definition unique_counts (a : list Z) : list Z * list nat :=
  let r := runs (sort a) in (r.*1, r.*2).

(** [np.unique(a)]. *)
Definition unique (a : list Z) : list Z := (unique_counts a).1.

(** [np.cumsum]. *)
Fixpoint cumsum_from (acc : nat) (a : list nat) : list nat :=
  match a with
  | [] => []
  | x :: a' => (acc + x) :: cumsum_from (acc + x) a'
  end.

Definition cumsum (a : list nat) : list nat := cumsum_from 0 a.

(** [np.insert(a, pos, v)] for a position inside the array. *)
Definition insert {A} (a : list A) (pos : nat) (v : A) : list A :=
  take pos a ++ v :: drop pos a.

(** [np.sum] of an array of counts. *)
Definition sum (a : list nat) : nat := sum_list a.

(** [a[b:e]] for non-negative bounds (Python clamps both to the length). *)
Definition slice {A} (a : list A) (b e : nat) : list A :=
  take (e - b) (drop b a).

(** [a[idx]] with an array of non-negative indices: [IndexError] when one
    of them is out of range. *)
Definition take_idx {A} (a : list A) (idx : list nat) : option (list A) :=
  mapM (λ i, a !! i) idx.

(** The contract of [np.argsort(a)] with the default [kind]: the result
    holds every position of [a] once and reading [a] through it gives a
    non-decreasing array.  The default kind is NumPy's quicksort, which
    NumPy documents as not stable: the order of positions with equal keys
    is not part of the contract. *)
Definition is_argsort (a : list Z) (p : list nat) : Prop :=
  p ≡ₚ seq 0 (length a) ∧ Sorted Z.le ((λ i, a !!! i) <$> p).

(** An argsort by insertion, which puts a position before the positions
    of equal key that follow it in [a]: it shows that the contract can be
    met. *)
Definition goes_first (a : list Z) (i j : nat) : bool :=
  bool_decide (a !!! i ≤ a !!! j)%Z.

Fixpoint insert_pos (a : list Z) (i : nat) (p : list nat) : list nat :=
  match p with
  | [] => [i]
  | j :: p' => if goes_first a i j then i :: p else j :: insert_pos a i p'
  end.

Definition argsort_ins (a : list Z) : list nat :=
  foldr (insert_pos a) [] (seq 0 (length a)).

(** *** The quicksort of [np.argsort]

    The sort that NumPy runs for [kind='quicksort'] on integer keys
    ([aquicksort_] and [aheapsort_] of NumPy's [npysort]): an introsort
    on the index array [tosort], which starts as [0, 1, ..., num - 1].
    Partitions of more than 17 entries are split around the median of
    three, smaller ones are sorted by insertion, and a partition that is
    reached after more than [2 * floor(log2 num)] splits is sorted by
    heapsort.  [v] is the array of keys; the loops of the C code are
    given as many steps as they can take at most. *)

Definition SMALL_QUICKSORT : nat := 16.

(** [Tag::less(v[i], v[j])]. *)
Definition less (v : list Z) (i j : nat) : bool := (v !!! i <? v !!! j)%Z.

(** [INTP_SWAP(tosort[i], tosort[j])]. *)
Definition swap (t : list nat) (i j : nat) : list nat :=
  <[j := t !!! i]> (<[i := t !!! j]> t).

(** [while (pj > pl && less(vp, v[*pk])) { *pj-- = *pk--; }]. *)
Fixpoint shift_up (fuel : nat) (v : list Z) (t : list nat) (pl vi pj : nat)
  : list nat * nat :=
  match fuel with
  | 0 => (t, pj)
  | S fuel' =>
      if bool_decide (pl < pj) && less v vi (t !!! (pj - 1))
      then shift_up fuel' v (<[pj := t !!! (pj - 1)]> t) pl vi (pj - 1)
      else (t, pj)
  end.

(** The insertion sort of [tosort[pl..pr]]: [n] rounds from [pi]. *)
Fixpoint insertion_sort (n : nat) (v : list Z) (t : list nat) (pl pi : nat)
  : list nat :=
  match n with
  | 0 => t
  | S n' =>
      let vi := t !!! pi in
      let '(t', pj) := shift_up pi v t pl vi pi in
      insertion_sort n' v (<[pj := vi]> t') pl (S pi)
  end.

(** [do { ++pi; } while (less(v[*pi], vp))], after the first [++pi]. *)
Fixpoint scan_up (fuel : nat) (v : list Z) (t : list nat) (vp : Z) (pi : nat)
  : nat :=
  match fuel with
  | 0 => pi
  | S fuel' =>
      if (v !!! (t !!! pi) <? vp)%Z then scan_up fuel' v t vp (S pi) else pi
  end.

(** [do { --pj; } while (less(vp, v[*pj]))], after the first [--pj]. *)
Fixpoint scan_down (fuel : nat) (v : list Z) (t : list nat) (vp : Z)
    (pj : nat) : nat :=
  match fuel with
  | 0 => pj
  | S fuel' =>
      if (vp <? v !!! (t !!! pj))%Z then scan_down fuel' v t vp (pj - 1)
      else pj
  end.

(** The [for (;;)] loop of the partition. *)
Fixpoint hoare (fuel : nat) (v : list Z) (t : list nat) (vp : Z)
    (pi pj : nat) : list nat * nat :=
  match fuel with
  | 0 => (t, pi)
  | S fuel' =>
      let pi' := scan_up (length t) v t vp (S pi) in
      let pj' := scan_down (length t) v t vp (pj - 1) in
      if bool_decide (pj' ≤ pi') then (t, pi')
      else hoare fuel' v (swap t pi' pj') vp pi' pj'
  end.

(** One partition of [tosort[pl..pr]]: the index array and the place
    [pi] of the pivot. *)
Definition partition (v : list Z) (t : list nat) (pl pr : nat)
  : list nat * nat :=
  let pm := pl + (pr - pl) / 2 in
  let t1 := if less v (t !!! pm) (t !!! pl) then swap t pm pl else t in
  let t2 := if less v (t1 !!! pr) (t1 !!! pm) then swap t1 pr pm else t1 in
  let t3 := if less v (t2 !!! pm) (t2 !!! pl) then swap t2 pm pl else t2 in
  let vp := v !!! (t3 !!! pm) in
  let '(t4, pi) := hoare (length t) v (swap t3 pm (pr - 1)) vp pl (pr - 1) in
  (swap t4 pi (pr - 1), pi).

(** [while ((pr - pl) > SMALL_QUICKSORT)]: the larger part is pushed on
    the stack with the depth left, the smaller one is split further. *)
Fixpoint partitions (fuel : nat) (v : list Z) (t : list nat) (pl pr : nat)
    (stack : list (nat * nat * Z)) (cdepth : Z)
  : list nat * nat * nat * list (nat * nat * Z) :=
  match fuel with
  | 0 => (t, pl, pr, stack)
  | S fuel' =>
      if bool_decide (SMALL_QUICKSORT < pr - pl) then
        let '(t', pi) := partition v t pl pr in
        if bool_decide (pi - pl < pr - pi)
        then partitions fuel' v t' pl (pi - 1)
               ((pi + 1, pr, (cdepth - 1)%Z) :: stack) (cdepth - 1)%Z
        else partitions fuel' v t' (pi + 1) pr
               ((pl, pi - 1, (cdepth - 1)%Z) :: stack) (cdepth - 1)%Z
      else (t, pl, pr, stack)
  end.

(** The inner loop of [aheapsort_] on [a = tosort + base - 1], and the
    final [a[i] = tmp]. *)
Fixpoint sift (fuel : nat) (v : list Z) (t : list nat) (base n tmp i j : nat)
  : list nat :=
  match fuel with
  | 0 => <[base + i - 1 := tmp]> t
  | S fuel' =>
      if bool_decide (j ≤ n) then
        let j' :=
          if bool_decide (j < n)
             && less v (t !!! (base + j - 1)) (t !!! (base + (j + 1) - 1))
          then j + 1 else j in
        if less v tmp (t !!! (base + j' - 1))
        then sift fuel' v (<[base + i - 1 := t !!! (base + j' - 1)]> t)
               base n tmp j' (j' + j')
        else <[base + i - 1 := tmp]> t
      else <[base + i - 1 := tmp]> t
  end.

(** [for (l = n >> 1; l > 0; --l)]. *)
Fixpoint heapify (l : nat) (v : list Z) (t : list nat) (base n : nat)
  : list nat :=
  match l with
  | 0 => t
  | S l' =>
      heapify l' v (sift n v t base n (t !!! (base + l - 1)) l (2 * l))
        base n
  end.

(** [for (; n > 1;)]. *)
Fixpoint sort_down (n : nat) (v : list Z) (t : list nat) (base : nat)
  : list nat :=
  match n with
  | S (S _ as n') =>
      let tmp := t !!! (base + n - 1) in
      let t' := <[base + n - 1 := t !!! base]> t in
      sort_down n' v (sift n v t' base n' tmp 1 2) base
  | _ => t
  end.

Definition aheapsort (v : list Z) (t : list nat) (base n : nat) : list nat :=
  sort_down n v (heapify (n / 2) v t base n) base.

(** The [while (1)] loop: one partition from the stack after the
    other. *)
Fixpoint aquicksort_loop (fuel : nat) (v : list Z) (t : list nat)
    (pl pr : nat) (stack : list (nat * nat * Z)) (cdepth : Z) : list nat :=
  match fuel with
  | 0 => t
  | S fuel' =>
      let '(t', stack') :=
        if bool_decide (cdepth < 0)%Z
        then (aheapsort v t pl (pr - pl + 1), stack)
        else
          let '(t1, pl1, pr1, stack1) :=
            partitions (length t) v t pl pr stack cdepth in
          (insertion_sort (pr1 - pl1) v t1 pl1 (S pl1), stack1) in
      match stack' with
      | [] => t'
      | (pl', pr', cdepth') :: rest =>
          aquicksort_loop fuel' v t' pl' pr' rest cdepth'
      end
  end.

Definition aquicksort (v : list Z) : list nat :=
  let num := length v in
  aquicksort_loop (S num) v (seq 0 num) 0 (num - 1) []
    (2 * Z.of_nat (Nat.log2 num)).

End Np.

(** ** The index map *)

(** The attributes of [dolfinx.common.IndexMap] that the script reads.
    [index_to_dest_ranks] is the adjacency list that the method of this
    name returns: node [i] holds the ranks that ghost index [i]. *)
Record IndexMap := {
  size_local : nat;
  local_range : Z * Z;
  ghosts : list Z;
  owners : list Z;
  index_to_dest_ranks : list (list Z)
}.

Definition num_ghosts (im : IndexMap) : nat := length (ghosts im).

(** [AdjacencyList.array]: the links of all nodes, flattened. *)
Definition adj_array (adj : list (list Z)) : list Z := concat adj.

(** What DOLFINx guarantees of an index map: one owner per ghost, a node
    of the adjacency list for every owned index, and a local range of
    [size_local] non-negative 64-bit indices. *)
Record wf_imap (im : IndexMap) : Prop := {
  wf_owners : length (owners im) = length (ghosts im);
  wf_nodes : size_local im ≤ length (index_to_dest_ranks im);
  wf_range :
    ((local_range im).2 = (local_range im).1 + Z.of_nat (size_local im))%Z;
  wf_range_lo : (0 ≤ (local_range im).1)%Z;
  wf_range_hi : ((local_range im).2 < 2 ^ 63)%Z
}.

(** ** Plan construction, lines 78-102 *)

Record OwnersData := {
  owners_idx : list nat;
  owners_size : list nat;
  owners_offsets : list nat;
  unique_owners : list Z
}.

Record GhostsData := {
  ghosts_idx : list Z;
  ghosts_size : list nat;
  ghosts_offsets : list nat;
  unique_ghosts : list Z
}.

(** Lines 95-97: the inner loop over the owned degrees of freedom, with
    the list [ghosts] that it appends to. *)
Fixpoint for_dofs (adj : list (list Z)) (shared_rank : Z) (dofs : list nat)
    (acc : list Z) : option (list Z) :=
  match dofs with
  | [] => Some acc
  | dof :: rest =>
      match adj !! dof with
      | Some links =>
          for_dofs adj shared_rank rest
            (if bool_decide (shared_rank ∈ links) then acc ++ [shared_rank]
             else acc)
      | None => None
      end
  end.

(** Lines 94-97: the outer loop over the shared ranks. *)
Fixpoint for_ranks (adj : list (list Z)) (nlocal : nat) (ranks : list Z)
    (acc : list Z) : option (list Z) :=
  match ranks with
  | [] => Some acc
  | shared_rank :: rest =>
      match for_dofs adj shared_rank (seq 0 nlocal) acc with
      | Some acc' => for_ranks adj nlocal rest acc'
      | None => None
      end
  end.

(** Lines 90-99: the Python list [ghosts], which is not [imap.ghosts]: the
    destination rank of every (owned index, rank) pair, grouped by
    rank. *)
Definition dest_list (im : IndexMap) : option (list Z) :=
  let shared_dofs := index_to_dest_ranks im in
  let shared_ranks := Np.unique (adj_array shared_dofs) in
  for_ranks shared_dofs (size_local im) shared_ranks [].

Section Plan.

(** [np.argsort], known by its contract only. *)
Variable argsort : list Z → list nat.

(** Lines 81-87. *)
Definition build_owners (im : IndexMap) : OwnersData :=
  let '(unique_owners, owners_size) := Np.unique_counts (owners im) in
  let owners_idx := argsort (owners im) in
  let owners_offsets := Np.cumsum owners_size in
  let owners_offsets := Np.insert owners_offsets 0 0 in
  {| owners_idx := owners_idx; owners_size := owners_size;
     owners_offsets := owners_offsets; unique_owners := unique_owners |}.

End Plan.

(** Lines 100-102, from the list built by the loops. *)
Definition ghost_groups (g : list Z) : list Z * list nat * list nat :=
  let '(unique_ghosts, ghosts_size) := Np.unique_counts g in
  let ghosts_offsets := Np.cumsum ghosts_size in
  let ghosts_offsets := Np.insert ghosts_offsets 0 0 in
  (unique_ghosts, ghosts_size, ghosts_offsets).

(** ** The exchange of global indices, lines 104-148 *)

(** 64-bit two's-complement wrap-around of NumPy's [int64] arithmetic. *)
Definition wrap64 (z : Z) : Z := ((z + 2 ^ 63) `mod` 2 ^ 64 - 2 ^ 63)%Z.

(** [np.zeros(n, dtype=np.int64)]. *)
Definition zeros (n : nat) : list Z := replicate n 0%Z.

(** A pending receive: the view [recv_buff_idx_d[begin:end]] and the
    source rank. *)
Record request := {
  req_begin : nat;
  req_end : nat;
  req_source : Z
}.

Global Instance request_eq_dec : EqDecision request.
Proof. solve_decision. Defined.

(** What the script does to the device and to MPI, in program order.
    [EvIsend] is the call of line 127, which the script has commented
    out: no run of the model issues it. *)
Inductive event :=
  | EvToDevice (a : list Z)
  | EvPrint
  | EvIsend (a : list Z) (dest : Z)
  | EvIrecv (r : request)
  | EvWaitall (rs : list request)
  | EvCopyToHost.

Definition is_post (e : event) : bool :=
  match e with EvIsend _ _ | EvIrecv _ => true | _ => false end.

Definition is_wait (e : event) : bool :=
  match e with EvWaitall _ => true | _ => false end.

Inductive exn := IndexError | MPIError.

(** How the script ends: it runs to the end, it hangs in [Waitall]
    because a posted receive is never matched, or it raises. *)
Inductive outcome (A : Type) :=
  | Done (a : A)
  | Blocked
  | Raised (e : exn).
Arguments Done {A} a.
Arguments Blocked {A}.
Arguments Raised {A} e.

(** The mutable state the exchange threads: the events so far, the
    Python list [all_requests] and the device array [recv_buff_idx_d]. *)
Record mpi_state := {
  trace : list event;
  all_requests : list request;
  recv_buff_idx_d : list Z
}.

Definition M (A : Type) : Type := mpi_state → outcome A * mpi_state.

Definition ret {A} (a : A) : M A := λ s, (Done a, s).

Definition bind {A B} (m : M A) (k : A → M B) : M B :=
  λ s, match m s with
       | (Done a, s') => k a s'
       | (Blocked, s') => (Blocked, s')
       | (Raised e, s') => (Raised e, s')
       end.

Notation "x <- m ; k" := (bind m (λ x, k))
  (at level 20, m at level 100, k at level 200, only parsing,
   right associativity).
Notation "m ;;; k" := (bind m (λ _, k))
  (at level 100, k at level 200, only parsing, right associativity).

Definition emit (e : event) : M unit :=
  λ s, (Done (), {| trace := trace s ++ [e];
                    all_requests := all_requests s;
                    recv_buff_idx_d := recv_buff_idx_d s |}).

Definition raise {A} (e : exn) : M A := λ s, (Raised e, s).

(** An array or list access that raises [IndexError] out of range. *)
Definition index {A} (o : option A) : M A :=
  match o with Some a => ret a | None => raise IndexError end.

(** [cuda.to_device(a)] of an array that is only stored. *)
Definition to_device (a : list Z) : M unit := emit (EvToDevice a).

(** Line 133: [recv_buff_idx_d = cuda.to_device(recv_buff_idx)]. *)
Definition to_device_recv (a : list Z) : M unit :=
  λ s, (Done (), {| trace := trace s ++ [EvToDevice a];
                    all_requests := all_requests s;
                    recv_buff_idx_d := a |}).

(** The communicator [comm]: its number of ranks, and the two values
    that MPI accepts as a source besides a rank, [MPI.PROC_NULL] and
    [MPI.ANY_SOURCE].  They are negative constants that the MPI library
    chooses (MPICH: -1 and -2, Open MPI: -2 and -1). *)
Record communicator := {
  comm_size : Z;
  PROC_NULL : Z;
  ANY_SOURCE : Z
}.

Definition is_rank (c : communicator) (u : Z) : Prop :=
  (0 ≤ u < comm_size c)%Z.

(** What [Irecv] accepts as [source]. *)
Definition is_source (c : communicator) (u : Z) : Prop :=
  is_rank c u ∨ u = PROC_NULL c ∨ u = ANY_SOURCE c.

Global Instance is_source_dec c u : Decision (is_source c u).
Proof. unfold is_source, is_rank. apply _. Defined.

(** [comm.Irecv(recv_buff_idx_d[begin:end], source=ghost)]: any other
    source is the MPI error of an invalid rank, and no request is
    made. *)
Definition Irecv (c : communicator) (begin end_ : nat) (source : Z)
  : M request :=
  let r := {| req_begin := begin; req_end := end_; req_source := source |} in
  if decide (is_source c source) then emit (EvIrecv r);;; ret r
  else raise MPIError.

(** [all_requests.append(reqr)]. *)
Definition append_request (r : request) : M unit :=
  λ s, (Done (), {| trace := trace s;
                    all_requests := all_requests s ++ [r];
                    recv_buff_idx_d := recv_buff_idx_d s |}).

(** Lines 119-123: the loop that fills [send_buff_idx], with the counter
    of [enumerate]. *)
Fixpoint fill_send (im : IndexMap) (od : OwnersData) (i : nat)
    (us : list Z) (send_buff_idx : list (list Z)) : option (list (list Z)) :=
  match us with
  | [] => Some send_buff_idx
  | owner :: rest =>
      match owners_offsets od !! i, owners_offsets od !! (i + 1) with
      | Some begin, Some end_ =>
          match Np.take_idx (ghosts im) (Np.slice (owners_idx od) begin end_),
                send_buff_idx !! i with
          | Some b, Some _ =>
              fill_send im od (S i) rest (<[i:=b]> send_buff_idx)
          | _, _ => None
          end
      | _, _ => None
      end
  end.

Definition build_send_buff_idx (im : IndexMap) (od : OwnersData)
  : option (list (list Z)) :=
  fill_send im od 0 (unique_owners od) (zeros <$> owners_size od).

(** Line 125. *)
Fixpoint to_device_all (bufs : list (list Z)) : M unit :=
  match bufs with
  | [] => ret ()
  | b :: rest => to_device b;;; to_device_all rest
  end.

(** Lines 126-129: the send loop; the send itself is commented out and
    only the [print] is left. *)
Fixpoint send_loop (send_buff_idx_d : list (list Z)) (i : nat) (us : list Z)
  : M unit :=
  match us with
  | [] => ret ()
  | owner :: rest =>
      _ <- index (send_buff_idx_d !! i);
      emit EvPrint;;;
      send_loop send_buff_idx_d (S i) rest
  end.

(** Lines 134-138: the receive loop. *)
Fixpoint recv_loop (c : communicator) (ghosts_offsets : list nat) (i : nat)
    (us : list Z) : M unit :=
  match us with
  | [] => ret ()
  | ghost :: rest =>
      begin <- index (ghosts_offsets !! i);
      end_ <- index (ghosts_offsets !! (i + 1));
      reqr <- Irecv c begin end_ ghost;
      append_request reqr;;;
      recv_loop c ghosts_offsets (S i) rest
  end.

Section Exchange.

Variable c : communicator.

(** [env source] is the message that a receive posted with this source
    is matched with while the script runs, if there is one: for a rank,
    the message that this rank sends to the script's rank; for
    [MPI.ANY_SOURCE], the message that MPI picks for the receive. *)
Variable env : Z → option (list Z).

(** What completes a receive from [source]: a receive from
    [MPI.PROC_NULL] completes at once, without a sender and with no
    data; what is no source has no message. *)
Definition incoming (source : Z) : option (list Z) :=
  if decide (source = PROC_NULL c) then Some []
  else if decide (is_source c source) then env source
  else None.

Definition matched (r : request) : bool :=
  bool_decide (is_Some (incoming (req_source r))).

(** A message longer than the view it is received into is an MPI
    truncation error. *)
Definition fits (buf : list Z) (r : request) : bool :=
  match incoming (req_source r) with
  | Some msg =>
      bool_decide
        (length msg ≤ length (Np.slice buf (req_begin r) (req_end r)))
  | None => true
  end.

(** The completed receive has written the message into its view. *)
Definition deliver (buf : list Z) (r : request) : list Z :=
  match incoming (req_source r) with
  | Some msg => list_inserts (req_begin r) msg buf
  | None => buf
  end.

(** Line 140: [MPI.Request.Waitall(all_requests)] returns when every
    request has completed. *)
Definition Waitall : M unit :=
  λ s,
    let rs := all_requests s in
    let buf := recv_buff_idx_d s in
    let s' := {| trace := trace s ++ [EvWaitall rs];
                 all_requests := rs; recv_buff_idx_d := buf |} in
    if forallb matched rs then
      if forallb (fits buf) rs then
        (Done (), {| trace := trace s'; all_requests := rs;
                     recv_buff_idx_d := foldl deliver buf rs |})
      else (Raised MPIError, s')
    else (Blocked, s').

(** Line 142: [recv_buff_idx_d.copy_to_host()]. *)
Definition copy_to_host : M (list Z) :=
  λ s, (Done (recv_buff_idx_d s),
        {| trace := trace s ++ [EvCopyToHost];
           all_requests := all_requests s;
           recv_buff_idx_d := recv_buff_idx_d s |}).

(** Line 144: [recv_buff_idx - imap.local_range[0]] on [int64]. *)
Definition to_local (recv_buff_idx : list Z) (im : IndexMap) : list Z :=
  (λ g, wrap64 (g - (local_range im).1)) <$> recv_buff_idx.

Variable argsort : list Z → list nat.

(** Lines 78-138: the groupings, and every request of the exchange
    posted. *)
Definition post_phase (im : IndexMap)
  : M (OwnersData * (list Z * list nat * list nat)) :=
  let od := build_owners argsort im in
  to_device (Z.of_nat <$> owners_idx od);;;
  g <- index (dest_list im);
  let '(unique_ghosts, ghosts_size, ghosts_offsets) := ghost_groups g in
  send_buff_idx <- index (build_send_buff_idx im od);
  to_device_all send_buff_idx;;;
  send_loop send_buff_idx 0 (unique_owners od);;;
  let recv_buff_idx := zeros (Np.sum ghosts_size) in
  to_device_recv recv_buff_idx;;;
  recv_loop c ghosts_offsets 0 unique_ghosts;;;
  ret (od, (unique_ghosts, ghosts_size, ghosts_offsets)).

(** Lines 140-148: the wait, and the received global indices turned into
    local ones. *)
Definition wait_phase (im : IndexMap) (od : OwnersData)
    (gg : list Z * list nat * list nat) : M (OwnersData * GhostsData) :=
  let '(unique_ghosts, ghosts_size, ghosts_offsets) := gg in
  Waitall;;;
  recv_buff_idx <- copy_to_host;
  let ghosts_idx := to_local recv_buff_idx im in
  to_device ghosts_idx;;;
  ret (od, {| ghosts_idx := ghosts_idx; ghosts_size := ghosts_size;
              ghosts_offsets := ghosts_offsets;
              unique_ghosts := unique_ghosts |}).

(** Lines 78-148. *)
Definition build_plan (im : IndexMap) : M (OwnersData * GhostsData) :=
  x <- post_phase im;
  wait_phase im x.1 x.2.

(** Line 104: the script starts with no request. *)
Definition init : mpi_state :=
  {| trace := []; all_requests := []; recv_buff_idx_d := [] |}.

Definition run_plan (im : IndexMap)
  : outcome (OwnersData * GhostsData) * mpi_state :=
  build_plan im init.

End Exchange.

(** ** The device kernel [copy_range], lines 106-113 *)

(** The coordinates of one work-item of a launch. *)
Record thread := {
  threadIdx : Z;
  blockIdx : Z;
  blockDim : Z
}.

(** The limits of a CUDA launch along x, and the work-items it has. *)
Definition in_launch (gridDim : Z) (t : thread) : Prop :=
  (0 ≤ threadIdx t < blockDim t)%Z ∧ (blockDim t ≤ 1024)%Z ∧
  (0 ≤ blockIdx t < gridDim)%Z ∧ (gridDim ≤ 2 ^ 31 - 1)%Z.

Definition int64 (z : Z) : Prop := (- 2 ^ 63 ≤ z < 2 ^ 63)%Z.

Section Kernel.

(** The element type of the two arrays. *)
Context {T : Type}.

(** Numba reads a negative index from the end of the array. *)
Definition norm_index (len : nat) (i : Z) : Z :=
  if (i <? 0)%Z then (i + Z.of_nat len)%Z else i.

(** Device arrays are not bounds-checked: an access outside the array is
    undefined, which the model reports as [None]. *)
Definition aget (a : list T) (i : Z) : option T :=
  let j := norm_index (length a) i in
  if (0 <=? j)%Z then a !! Z.to_nat j else None.

Definition aset (a : list T) (i : Z) (v : T) : option (list T) :=
  let j := norm_index (length a) i in
  if ((0 <=? j) && (j <? Z.of_nat (length a)))%Z
  then Some (<[Z.to_nat j:=v]> a) else None.

(** Line 110; Numba computes on 64-bit integers. *)
Definition global_index (t : thread) : Z :=
  let thread_id := threadIdx t in
  let block_id := blockIdx t in
  wrap64 (thread_id + wrap64 (block_id * blockDim t)).

(** One work-item of [copy_range[grid, block](in_, out_, begin, end)]:
    the array [out_] after it has run. *)
Definition copy_range (in_ out_ : list T) (begin end_ : Z) (t : thread)
  : option (list T) :=
  let idx := global_index t in
  if (idx <? wrap64 (end_ - begin))%Z then
    match aget in_ (wrap64 (idx + begin)) with
    | Some v => aset out_ idx v
    | None => None
    end
  else Some out_.

End Kernel.

(** ** The two scatters *)

Module Scatter.

Section Scatter.

(** The scalar type of the value buffer and the reduction that
    [scatter_reverse] applies at the owner. *)
Context {V : Type}.
Variable combine : V → V → V.

(** One rank: its index map and its value buffer, owned values first and
    ghost values appended. *)
Record rank_state := {
  rs_map : IndexMap;
  rs_vals : list V
}.

(** The world [w] is the list of all ranks of the communicator, rank [r]
    at position [r].  The value that rank [o] holds for the global index
    [g], when [o] is a rank of the world and [g] is in its local range. *)
Definition owned_value (w : list rank_state) (o g : Z) : option V :=
  if (0 <=? o)%Z then
    match w !! Z.to_nat o with
    | Some rs =>
        let li := (g - (local_range (rs_map rs)).1)%Z in
        if ((0 <=? li) && (li <? Z.of_nat (size_local (rs_map rs))))%Z
        then rs_vals rs !! Z.to_nat li else None
    | None => None
    end
  else None.

(** The new value of ghost slot [k] of a rank after a forward scatter. *)
Definition forward_slot (w : list rank_state) (im : IndexMap) (k : nat)
    (old : V) : V :=
  match owners im !! k, ghosts im !! k with
  | Some o, Some g => default old (owned_value w o g)
  | _, _ => old
  end.

Definition forward_rank (w : list rank_state) (rs : rank_state) : rank_state :=
  let n := size_local (rs_map rs) in
  {| rs_map := rs_map rs;
     rs_vals := take n (rs_vals rs)
                ++ imap (forward_slot w (rs_map rs)) (drop n (rs_vals rs)) |}.

(** Modelled from the spec: [scatter_forward] is not in the sources at
    hand; the spec has it send the value at every owned index to every
    rank that holds the index as a ghost, overwriting the ghost slot. *)
Definition scatter_forward (w : list rank_state) : list rank_state :=
  forward_rank w <$> w.

(** The ghost values of rank state [rs] that belong to the global index
    [g] owned by rank [o], in slot order. *)
Fixpoint ghost_values (o g : Z) (os gs : list Z) (vs : list V) : list V :=
  match os, gs, vs with
  | o' :: os', g' :: gs', v :: vs' =>
      if bool_decide (o' = o ∧ g' = g) then v :: ghost_values o g os' gs' vs'
      else ghost_values o g os' gs' vs'
  | _, _, _ => []
  end.

Definition contributions (w : list rank_state) (o g : Z) : list V :=
  rs ← w;
  ghost_values o g (owners (rs_map rs)) (ghosts (rs_map rs))
    (drop (size_local (rs_map rs)) (rs_vals rs)).

Definition reverse_slot (w : list rank_state) (o : nat) (im : IndexMap) (i : nat)
    (old : V) : V :=
  if bool_decide (i < size_local im) then
    foldl combine old
      (contributions w (Z.of_nat o) ((local_range im).1 + Z.of_nat i)%Z)
  else old.

Definition reverse_rank (w : list rank_state) (o : nat) (rs : rank_state)
  : rank_state :=
  {| rs_map := rs_map rs;
     rs_vals := imap (reverse_slot w o (rs_map rs)) (rs_vals rs) |}.

(** Modelled from the spec: [scatter_reverse] is imported from the module
    [scatterer], which is not in the sources at hand; the spec has it
    send the values held in ghost slots to the owning rank, which
    combines them into the owned slot with a reduction that the spec
    leaves to be chosen (sum or overwrite). *)
Definition scatter_reverse (w : list rank_state) : list rank_state :=
  imap (reverse_rank w) w.


End Scatter.

End Scatter.

(** ** Auxiliary notions for the proofs *)

(** An array cut into consecutive pieces of the given lengths. *)
Fixpoint chunks {A} (cs : list nat) (l : list A) : list (list A) :=
  match cs with
  | [] => []
  | c :: cs' => take c l :: chunks cs' (drop c l)
  end.

(** The number of owned degrees of freedom that rank [r] ghosts. *)
Definition shared_count (adj : list (list Z)) (nlocal : nat) (r : Z) : nat :=
  length (filter (λ dof, r ∈ adj !!! dof) (seq 0 nlocal)).

(** The (owned index, destination rank) pairs of an index map: every
    owned index with every rank of its links, a rank counted once. *)
Definition dest_pairs (im : IndexMap) : list (nat * Z) :=
  dof ← seq 0 (size_local im);
  r ← remove_dups (index_to_dest_ranks im !!! dof);
  [(dof, r)].

(** The state after some more events. *)
Definition log (t : list event) (s : mpi_state) : mpi_state :=
  {| trace := trace s ++ t; all_requests := all_requests s;
     recv_buff_idx_d := recv_buff_idx_d s |}.

(** The request that the receive loop posts for group [i]. *)
Definition req_at (cs : list nat) (i : nat) (ghost : Z) : request :=
  {| req_begin := sum_list (take i cs); req_end := sum_list (take (S i) cs);
     req_source := ghost |}.

(** The requests that the receive loop posts for the given groups. *)
Definition recv_requests (us : list Z) (cs : list nat) : list request :=
  imap (req_at cs) us.

(** The state after the requests [rs] have been posted and registered. *)
Definition post_all (rs : list request) (s : mpi_state) : mpi_state :=
  {| trace := trace s ++ (EvIrecv <$> rs);
     all_requests := all_requests s ++ rs;
     recv_buff_idx_d := recv_buff_idx_d s |}.

(** The list that the loops of lines 93-97 build, in closed form. *)
Definition dest_ranks_list (im : IndexMap) : list Z :=
  flat_map (λ r, replicate (shared_count (index_to_dest_ranks im) (size_local im) r) r)
    (Np.unique (adj_array (index_to_dest_ranks im))).

(** The buffers of global indices for the owners, in closed form. *)
Definition send_bufs (im : IndexMap) (od : OwnersData) : list (list Z) :=
  (λ b : list nat, (λ i, ghosts im !!! i) <$> b)
    <$> chunks (owners_size od) (owners_idx od).

(** The sources that the receive loop gets through: those before the
    first one that [Irecv] refuses. *)
Fixpoint accepted (c : communicator) (us : list Z) : list Z :=
  match us with
  | [] => []
  | u :: us' => if decide (is_source c u) then u :: accepted c us' else []
  end.

(** The state of a run of lines 78-138 on a well-formed index map, when
    the receive loop ends. *)
Definition state_posted (c : communicator) (argsort : list Z → list nat)
    (im : IndexMap) : mpi_state :=
  let od := build_owners argsort im in
  let '(us0, cs, _) := ghost_groups (dest_ranks_list im) in
  let us := accepted c us0 in
  {| trace := EvToDevice (Z.of_nat <$> owners_idx od)
              :: (EvToDevice <$> send_bufs im od)
              ++ replicate (length (unique_owners od)) EvPrint
              ++ EvToDevice (zeros (Np.sum cs))
              :: (EvIrecv <$> recv_requests us cs);
     all_requests := recv_requests us cs;
     recv_buff_idx_d := zeros (Np.sum cs) |}.

(** The end of a run of lines 140-148 from state [s]. *)
Definition wait_result (c : communicator) (env : Z → option (list Z))
    (im : IndexMap) (od : OwnersData) (gg : list Z * list nat * list nat)
    (s : mpi_state)
  : outcome (OwnersData * GhostsData) * mpi_state :=
  let rs := all_requests s in
  let buf := recv_buff_idx_d s in
  let s1 := log [EvWaitall rs] s in
  if forallb (matched c env) rs then
    if forallb (fits c env buf) rs then
      let recv_buff_idx := foldl (deliver c env) buf rs in
      let ghosts_idx := to_local recv_buff_idx im in
      (Done (od, {| ghosts_idx := ghosts_idx; ghosts_size := gg.1.2;
                    ghosts_offsets := gg.2; unique_ghosts := gg.1.1 |}),
       {| trace := trace s1 ++ [EvCopyToHost; EvToDevice ghosts_idx];
          all_requests := rs; recv_buff_idx_d := recv_buff_idx |})
    else (Raised MPIError, s1)
  else (Blocked, s1).

(** Every request of [all_requests] has been posted, and nothing else. *)
Definition posted (s : mpi_state) : Prop :=
  filter (λ e, is_post e = true) (trace s) = EvIrecv <$> all_requests s.

(** A computation that awaits nothing and keeps [posted], however it
    ends. *)
Definition quiet {A} (m : M A) : Prop :=
  ∀ s o s', m s = (o, s') →
    (∃ t, trace s' = trace s ++ t ∧ Forall (λ e, is_wait e = false) t)
    ∧ (posted s → posted s').

(** A computation that neither posts nor awaits, however it ends. *)
Definition silent {A} (m : M A) : Prop :=
  ∀ s o s', m s = (o, s') →
    ∃ t, trace s' = trace s ++ t
         ∧ Forall (λ e, is_wait e = false ∧ is_post e = false) t.

(** Fire all, then wait all: in a trace, no request is posted after a
    wait, and a wait awaits the requests posted before it. *)
Definition fired_then_waited (tr : list event) : Prop :=
  (∀ i j e1 e2, tr !! i = Some e1 → tr !! j = Some e2 →
     is_wait e1 = true → is_post e2 = true → j < i)
  ∧ (∀ i rs, tr !! i = Some (EvWaitall rs) →
       filter (λ e, is_post e = true) tr = EvIrecv <$> rs).

(** Fire all, as the spec has it: when a wait is executed, a send to
    every owner rank and a receive from every destination rank have been
    posted before it. *)
Definition all_fired_before_wait (owner_ranks dest_ranks : list Z)
    (tr : list event) : Prop :=
  ∀ i rs, tr !! i = Some (EvWaitall rs) →
    (∀ o, o ∈ owner_ranks →
       ∃ j a, j < i ∧ tr !! j = Some (EvIsend a o))
    ∧ (∀ d, d ∈ dest_ranks →
         ∃ j r, j < i ∧ tr !! j = Some (EvIrecv r) ∧ req_source r = d).

(** The metadata of all ranks, rank [r] at position [r]: does the owner
    [o] of the global index [g] report it as ghosted by rank [r]? *)
Definition reports_ghosted (w : list IndexMap) (o g : Z) (r : nat) : bool :=
  match w !! Z.to_nat o with
  | Some imo =>
      let li := (g - (local_range imo).1)%Z in
      bool_decide (0 ≤ o)%Z && bool_decide (0 ≤ li)%Z
      && bool_decide (Z.of_nat r ∈ index_to_dest_ranks imo !!! Z.to_nat li)
  | None => false
  end.

(** The ghosts of rank [r] are all acknowledged by their owners. *)
Definition symmetric_at (w : list IndexMap) (r : nat) (im : IndexMap) : bool :=
  forallb (λ og, reports_ghosted w og.1 og.2 r) (zip (owners im) (ghosts im)).

(** Equal keys keep the order of their positions. *)
Definition keeps_slot_order (a : list Z) (p : list nat) : Prop :=
  ∀ k1 k2 s1 s2, p !! k1 = Some s1 → p !! k2 = Some s2 → k1 < k2 →
    a !! s1 = a !! s2 → s1 < s2.

(** An index map with four ghosts owned by the ranks 1 and 2 and three
    owned indices, two of them ghosted by other ranks. *)
Definition im_ex : IndexMap :=
  {| size_local := 3; local_range := (0, 3)%Z;
     ghosts := [7; 3; 9; 4]%Z; owners := [2; 1; 2; 1]%Z;
     index_to_dest_ranks := [[1; 2]; []; [2]]%Z |}.

(** An index map with twenty ghosts owned by the ranks 1, 2 and 3. *)
Definition im_q : IndexMap :=
  {| size_local := 3; local_range := (0, 3)%Z;
     ghosts := [10; 40; 11; 70; 41; 12; 71; 72; 13; 42; 43; 14; 73; 15; 44;
                74; 16; 45; 17; 75]%Z;
     owners := [1; 2; 1; 3; 2; 1; 3; 3; 1; 2; 2; 1; 3; 1; 2; 3; 1; 2; 1; 3]%Z;
     index_to_dest_ranks := [[]; []; []] |}.

(** A communicator of three ranks, with the special sources of
    MPICH. *)
Definition comm_ex : communicator :=
  {| comm_size := 3; PROC_NULL := -1; ANY_SOURCE := -2 |}.

(** The ranks 1 and 2 send the indices they ghost. *)
Definition env_ex (source : Z) : option (list Z) :=
  if decide (source = 1%Z) then Some [0%Z]
  else if decide (source = 2%Z) then Some [0; 2]%Z
  else None.

(** Two ranks with metadata that does not agree: rank 0 has the global
    index 3 as a ghost owned by rank 1, and rank 1 reports no owned index
    as ghosted by anyone. *)
Definition im_a0 : IndexMap :=
  {| size_local := 3; local_range := (0, 3)%Z;
     ghosts := [3%Z]; owners := [1%Z]; index_to_dest_ranks := [[]; []; []] |}.

Definition im_a1 : IndexMap :=
  {| size_local := 2; local_range := (3, 5)%Z;
     ghosts := []; owners := []; index_to_dest_ranks := [[]; []] |}.

Definition w_asym : list IndexMap := [im_a0; im_a1].

(** Their communicator, with the special sources of MPICH. *)
Definition comm_two : communicator :=
  {| comm_size := 2; PROC_NULL := -1; ANY_SOURCE := -2 |}.

(** Work-items 1 of the blocks 0 and 1 of a launch with blocks of two
    work-items. *)
Definition thread_in : thread :=
  {| threadIdx := 1; blockIdx := 0; blockDim := 2 |}.

Definition thread_ex : thread :=
  {| threadIdx := 1; blockIdx := 1; blockDim := 2 |}.

(** Rank 1 sends an index that this rank does not own. *)
Definition env_out (source : Z) : option (list Z) :=
  if decide (source = 1%Z) then Some [100%Z]
  else if decide (source = 2%Z) then Some [0; 2]%Z
  else None.

(** Two ranks: rank 0 owns the indices 0, 1, 2 with the values 10, 20, 30
    and holds index 3 as a ghost with value 7; rank 1 owns the indices 3,
    4 with the values 40, 50 and holds index 0 as a ghost with value
    5. *)
Definition w_ex : list (@Scatter.rank_state Z) :=
  [ {| Scatter.rs_map :=
         {| size_local := 3; local_range := (0, 3)%Z; ghosts := [3%Z];
            owners := [1%Z]; index_to_dest_ranks := [[1%Z]; []; []] |};
       Scatter.rs_vals := [10; 20; 30; 7]%Z |};
    {| Scatter.rs_map :=
         {| size_local := 2; local_range := (3, 5)%Z; ghosts := [0%Z];
            owners := [0%Z]; index_to_dest_ranks := [[0%Z]; []] |};
       Scatter.rs_vals := [40; 50; 5]%Z |} ].

(** ** Further notions for the exchange *)

(** What a completed receive writes: the position and the message (an
    unmatched receive writes nothing); [env] gives the message for a
    source. *)
Definition write_of (env : Z → option (list Z)) (r : request)
  : nat * list Z :=
  (req_begin r, default [] (env (req_source r))).

Definition apply_write (buf : list Z) (w : nat * list Z) : list Z :=
  list_inserts w.1 w.2 buf.

(** Messages written one behind the other from position [b]. *)
Fixpoint writes_from (b : nat) (ms : list (list Z)) : list (nat * list Z) :=
  match ms with
  | [] => []
  | m :: ms' => (b, m) :: writes_from (b + length m) ms'
  end.

(** The views of two receives do not overlap. *)
Definition disjoint_views (r1 r2 : request) : Prop :=
  req_end r1 ≤ req_begin r2 ∨ req_end r2 ≤ req_begin r1.

(** ** A launch of the kernel *)

Section Launch.

Context {T : Type}.

(** Work-items run one after the other, in the order of the list.  A
    work-item of [copy_range] reads [in_] and writes at most one cell of
    [out_], and the two arrays do not overlap, so that every execution of
    a launch is the run of its work-items in some order. *)
Fixpoint run_threads (in_ out_ : list T) (begin end_ : Z) (ts : list thread)
  : option (list T) :=
  match ts with
  | [] => Some out_
  | t :: ts' =>
      match copy_range in_ out_ begin end_ t with
      | Some out' => run_threads in_ out' begin end_ ts'
      | None => None
      end
  end.

End Launch.

(** The work-items of the launch [copy_range[gridDim, blockDim](...)]. *)
Definition launch_threads (gridDim blockDim : nat) : list thread :=
  bid ← seq 0 gridDim;
  tid ← seq 0 blockDim;
  [ {| threadIdx := Z.of_nat tid; blockIdx := Z.of_nat bid;
       blockDim := Z.of_nat blockDim |} ].

(** Some work-item of the list has the global index [j]. *)
Definition has_index (ts : list thread) (j : nat) : Prop :=
  Exists (λ t, global_index t = Z.of_nat j) ts.

Global Instance has_index_dec ts j : Decision (has_index ts j).
Proof. unfold has_index. apply _. Defined.

(** ** [demo_linear.py] *)

Module Demo.

(** Lines 40-50: the dict [quadrature_degree] (the dict [Q] of the two
    other scripts is the same). *)
Definition quadrature_degree : gmap Z Z :=
  list_to_map [(2, 3); (3, 4); (4, 6); (5, 8); (6, 10); (7, 12); (8, 14);
               (9, 16); (10, 18)]%Z.

(** Lines 146-147: [indices[values == tag]].  A boolean index of another
    length than the array raises [IndexError], but for an empty one,
    which NumPy takes for an array of any length and which selects
    nothing. *)
Definition select_tag (indices values : list Z) (tag : Z) : option (list Z) :=
  if decide (length values = length indices)
  then Some (filter (λ iv, iv.2 = tag) (zip indices values)).*1
  else if decide (values = []) then Some []
  else None.

Section FacetPoints.

(** The type of the coordinates, which are copied and never computed
    with, and the two constants of [np.zeros] and [np.ones]. *)
Context {T : Type} (zero one : T).

(** [np.c_[a, b, c]] of three vectors: the rows [[a_i, b_i, c_i]];
    vectors of different lengths raise [ValueError]. *)
Definition c_ (a b c : list T) : option (list (list T)) :=
  if decide (length a = length b ∧ length b = length c)
  then Some (zip_with (λ x yz, [x; yz.1; yz.2]) a (zip b c))
  else None.

(** Lines 163-172: the evaluation points on the six facets of the
    reference hexahedron, from the points [pts_f] of the quadrature rule
    of the quadrilateral and their number [nq_f]. *)
Definition facet_points (pts_f : list (T * T)) (nq_f : nat)
  : option (list (list (list T))) :=
  let pts_0 := pts_f.*1 in
  let pts_1 := pts_f.*2 in
  let zeros := replicate nq_f zero in
  let ones := replicate nq_f one in
  match c_ pts_0 pts_1 zeros, c_ pts_0 zeros pts_1, c_ zeros pts_0 pts_1,
        c_ ones pts_0 pts_1, c_ pts_0 ones pts_1, c_ pts_0 pts_1 ones with
  | Some f0, Some f1, Some f2, Some f3, Some f4, Some f5 =>
      Some [f0; f1; f2; f3; f4; f5]
  | _, _, _, _, _, _ => None
  end.

End FacetPoints.

(** [a.shape[1]] of a two-dimensional array given by its rows. *)
Definition shape1 {A} (a : list (list A)) : option nat := length <$> head a.

(** [dofmap[cell][local_facet_dof[local_facet]]], line 196: cells, facets
    and local numbers of degrees of freedom are non-negative. *)
Definition facet_row (dofmap : list (list Z)) (local_facet_dof : list (list nat))
    (cell local_facet : nat) : option (list Z) :=
  match dofmap !! cell, local_facet_dof !! local_facet with
  | Some row, Some idx => Np.take_idx row idx
  | _, _ => None
  end.

(** [a[i, :] = row] for a row of [a] with [ncols] entries: a row of one
    entry is broadcast, any other length than [ncols] raises
    [ValueError]. *)
Definition assign_row (ncols : nat) (row : list Z) : option (list Z) :=
  if decide (length row = ncols) then Some row
  else match row with
       | [x] => Some (replicate ncols x)
       | _ => None
       end.

(** Lines 195-196 and 202-203: the loop over the boundary facets, with
    the counter of [enumerate]. *)
Fixpoint fill_bfacet (dofmap : list (list Z))
    (local_facet_dof : list (list nat)) (ncols : nat) (i : nat)
    (boundary_data : list (nat * nat)) (bfacet_dofmap : list (list Z))
  : option (list (list Z)) :=
  match boundary_data with
  | [] => Some bfacet_dofmap
  | (cell, local_facet) :: rest =>
      match facet_row dofmap local_facet_dof cell local_facet,
            bfacet_dofmap !! i with
      | Some row, Some _ =>
          match assign_row ncols row with
          | Some r =>
              fill_bfacet dofmap local_facet_dof ncols (S i) rest
                (<[i:=r]> bfacet_dofmap)
          | None => None
          end
      | _, _ => None
      end
  end.

(** Lines 192-196 and 199-203: the degrees of freedom of the boundary
    facets. *)
Definition bfacet_dofmap (dofmap : list (list Z))
    (local_facet_dof : list (list nat)) (boundary_data : list (nat * nat))
  : option (list (list Z)) :=
  match shape1 local_facet_dof with
  | Some ncols =>
      fill_bfacet dofmap local_facet_dof ncols 0 boundary_data
        (replicate (length boundary_data) (replicate ncols 0%Z))
  | None => None
  end.

End Demo.

(** The coordinate that is constant on facet [f] of the reference
    hexahedron, and its value there, as the comments of lines 167-172
    give them: z = 0, y = 0, x = 0, x = 1, y = 1, z = 1. *)
Definition facet_axis (f : nat) : nat :=
  match f with
  | 0 => 2 | 1 => 1 | 2 => 0 | 3 => 0 | 4 => 1 | _ => 2
  end.

Definition facet_value {T} (zero one : T) (f : nat) : T :=
  if decide (f < 3) then zero else one.

(** The row of [bfacet_dofmap] for one boundary facet. *)
Definition facet_dofs (dofmap : list (list Z)) (local_facet_dof : list (list nat))
    (cf : nat * nat) : list Z :=
  (λ k, (dofmap !!! cf.1) !!! k) <$> (local_facet_dof !!! cf.2).

(** ** Facts about the NumPy primitives *)

Section NpFacts.

Implicit Types (a : list Z) (cs : list nat) (p : list nat).

Lemma runs_expand a :
  flat_map (λ uc, replicate uc.2 uc.1) (Np.runs a) = a.
Proof.
  induction a as [|x a IH]; simpl; [done|].
  destruct (Np.runs a) as [|[y c] r] eqn:E.
  - simpl in *. by rewrite <- IH.
  - destruct (decide (x = y)) as [->|Hne]; simpl in *; by rewrite <- IH.
Qed.

Lemma runs_sum a : sum_list (Np.runs a).*2 = length a.
Proof.
  induction a as [|x a IH]; simpl; [done|].
  destruct (Np.runs a) as [|[y c] r] eqn:E.
  - simpl in *. by rewrite <- IH.
  - destruct (decide (x = y)) as [->|Hne]; simpl in *; lia.
Qed.

Lemma runs_head a x a' :
  a = x :: a' → ∃ c r, Np.runs a = (x, c) :: r.
Proof.
  intros ->. simpl. destruct (Np.runs a') as [|[y c] r]; [by eauto|].
  destruct (decide (x = y)) as [->|]; eauto.
Qed.

Lemma runs_fst_elem a x : x ∈ (Np.runs a).*1 ↔ x ∈ a.
Proof.
  induction a as [|y a IH]; simpl; [done|].
  rewrite elem_of_cons, <- IH.
  destruct (Np.runs a) as [|[z c] r]; simpl.
  - rewrite elem_of_cons. tauto.
  - destruct (decide (y = z)) as [->|]; simpl; rewrite !elem_of_cons; tauto.
Qed.

Lemma runs_sorted a : Sorted Z.le a → Sorted Z.lt (Np.runs a).*1.
Proof.
  induction 1 as [|x a Hs IH Hhd]; simpl; [constructor|].
  destruct a as [|y a'].
  - simpl. repeat constructor.
  - destruct (runs_head (y :: a') y a' eq_refl) as (c & r & E).
    rewrite E in *. simpl in IH.
    destruct (decide (x = y)) as [->|Hne]; simpl; [done|].
    constructor; [done|]. constructor.
    apply HdRel_inv in Hhd. lia.
Qed.

Lemma Sorted_lt_NoDup (l : list Z) : Sorted Z.lt l → NoDup l.
Proof.
  intros Hs. apply (Sorted_StronglySorted _) in Hs.
  induction Hs as [|x l _ IH Hall]; constructor; [|done].
  intros Hin. rewrite Forall_forall in Hall. specialize (Hall _ Hin). lia.
Qed.

Lemma sort_length a : length (Np.sort a) = length a.
Proof. unfold Np.sort. by rewrite merge_sort_Permutation. Qed.

Lemma sort_sorted a : Sorted Z.le (Np.sort a).
Proof. apply (Sorted_merge_sort _). Qed.

Lemma sort_perm a : Np.sort a ≡ₚ a.
Proof. apply merge_sort_Permutation. Qed.

Lemma unique_counts_sum a : sum_list (Np.unique_counts a).2 = length a.
Proof. unfold Np.unique_counts. simpl. by rewrite runs_sum, sort_length. Qed.

Lemma unique_counts_length a :
  length (Np.unique_counts a).1 = length (Np.unique_counts a).2.
Proof. unfold Np.unique_counts. simpl. by rewrite !length_fmap. Qed.

Lemma unique_NoDup a : NoDup (Np.unique a).
Proof. apply Sorted_lt_NoDup, runs_sorted, sort_sorted. Qed.

Lemma unique_elem a x : x ∈ Np.unique a ↔ x ∈ a.
Proof.
  unfold Np.unique, Np.unique_counts. simpl.
  by rewrite runs_fst_elem, sort_perm.
Qed.

(** Offsets are the sums of the counts before them. *)
Lemma cumsum_from_lookup acc cs i :
  i < length cs →
  Np.cumsum_from acc cs !! i = Some (acc + sum_list (take (S i) cs)).
Proof.
  revert acc i. induction cs as [|c cs IH]; intros acc i Hi; simpl in *; [lia|].
  destruct i as [|i]; simpl.
  - f_equal. destruct cs; simpl; lia.
  - rewrite IH by lia. simpl. f_equal. lia.
Qed.

Lemma offsets_lookup cs i :
  i ≤ length cs →
  Np.insert (Np.cumsum cs) 0 0 !! i = Some (sum_list (take i cs)).
Proof.
  intros Hi. unfold Np.insert, Np.cumsum. rewrite take_0, drop_0. simpl.
  destruct i as [|i]; simpl; [done|].
  rewrite cumsum_from_lookup by lia. done.
Qed.

Lemma offsets_length cs : length (Np.insert (Np.cumsum cs) 0 0) = S (length cs).
Proof.
  unfold Np.insert, Np.cumsum. rewrite take_0, drop_0. simpl. f_equal.
  generalize 0. induction cs as [|c cs IH]; intros acc; simpl; [done|].
  by rewrite IH.
Qed.

Lemma offsets_lookup_ge cs i :
  length cs < i → Np.insert (Np.cumsum cs) 0 0 !! i = None.
Proof. intros. apply lookup_ge_None_2. rewrite offsets_length. lia. Qed.

(** Pieces of an array. *)
Lemma chunks_length {A} cs (l : list A) : length (chunks cs l) = length cs.
Proof. revert l. induction cs; intros; simpl; [done|]. by f_equal. Qed.

Lemma chunks_lookup {A} cs (l : list A) i :
  i < length cs →
  chunks cs l !! i
  = Some (Np.slice l (sum_list (take i cs)) (sum_list (take (S i) cs))).
Proof.
  revert l i. induction cs as [|c cs IH]; intros l i Hi; simpl in *; [lia|].
  destruct i as [|i]; simpl.
  - unfold Np.slice. simpl. do 2 f_equal. lia.
  - rewrite IH by lia. unfold Np.slice. rewrite drop_drop. do 2 f_equal.
    simpl. lia.
Qed.

Lemma chunks_concat {A} cs (l : list A) :
  sum_list cs = length l → concat (chunks cs l) = l.
Proof.
  revert l. induction cs as [|c cs IH]; intros l Hl; simpl in *.
  - by destruct l.
  - rewrite IH; [apply take_drop|]. rewrite length_drop. lia.
Qed.

Lemma chunks_fmap {A B} (f : A → B) cs (l : list A) :
  chunks cs (f <$> l) = (λ b : list A, f <$> b) <$> chunks cs l.
Proof.
  revert l. induction cs as [|c cs IH]; intros l; simpl; [done|].
  by rewrite <- fmap_take, <- fmap_drop, IH.
Qed.

Lemma chunks_runs (r : list (Z * nat)) :
  chunks r.*2 (flat_map (λ uc, replicate uc.2 uc.1) r)
  = (λ uc, replicate uc.2 uc.1) <$> r.
Proof.
  induction r as [|[u c] r IH]; simpl; [done|].
  rewrite take_app_length' by (by rewrite length_replicate).
  rewrite drop_app_length' by (by rewrite length_replicate).
  f_equal. apply IH.
Qed.

Lemma take_idx_total {A} `{!Inhabited A} (g : list A) idx :
  Forall (λ i, i < length g) idx →
  Np.take_idx g idx = Some ((λ i, g !!! i) <$> idx).
Proof.
  intros Hall. unfold Np.take_idx. apply mapM_Some_2.
  induction Hall as [|i idx Hi _ IH]; simpl; constructor; [|done].
  by apply list_lookup_lookup_total_lt.
Qed.

Lemma fmap_lookup_total_seq {A} `{!Inhabited A} (g : list A) :
  (λ i, g !!! i) <$> seq 0 (length g) = g.
Proof.
  apply list_eq. intros i. rewrite list_lookup_fmap.
  destruct (decide (i < length g)) as [Hi|Hi].
  - rewrite lookup_seq_lt by done. simpl.
    by rewrite list_lookup_lookup_total_lt.
  - rewrite lookup_seq_ge by lia. simpl. symmetry.
    apply lookup_ge_None_2. lia.
Qed.

(** What the contract of [np.argsort] gives. *)
Lemma is_argsort_slots a p :
  Np.is_argsort a p → Forall (λ i, i < length a) p.
Proof.
  intros [Hp _]. rewrite Forall_forall. intros i Hi.
  rewrite Hp in Hi. apply elem_of_seq in Hi. lia.
Qed.

Lemma is_argsort_length a p : Np.is_argsort a p → length p = length a.
Proof. intros [Hp _]. by rewrite Hp, length_seq. Qed.

Lemma is_argsort_sort a p :
  Np.is_argsort a p → (λ i, a !!! i) <$> p = Np.sort a.
Proof.
  intros [Hp Hs]. apply (Sorted_unique Z.le); [done|apply sort_sorted|].
  by rewrite Hp, fmap_lookup_total_seq, sort_perm.
Qed.

Lemma is_argsort_gather {A} `{!Inhabited A} a p (g : list A) :
  Np.is_argsort a p → length g = length a →
  (λ i, g !!! i) <$> p ≡ₚ g.
Proof.
  intros [Hp _] Hlen. rewrite Hp, <- Hlen. by rewrite fmap_lookup_total_seq.
Qed.

End NpFacts.

(** ** The insertion argsort meets the contract *)

Section ArgsortIns.

Variable a : list Z.

Let key (i : nat) : Z := a !!! i.

Lemma goes_first_le i j : Np.goes_first a i j = true → (key i ≤ key j)%Z.
Proof.
  unfold Np.goes_first, key. intros H%bool_decide_eq_true. lia.
Qed.

Lemma goes_first_ge i j : Np.goes_first a i j = false → (key j ≤ key i)%Z.
Proof.
  unfold Np.goes_first, key. intros H%bool_decide_eq_false. lia.
Qed.

Lemma insert_pos_perm i p : Np.insert_pos a i p ≡ₚ i :: p.
Proof.
  induction p as [|j p IH]; simpl; [done|].
  destruct (Np.goes_first a i j); [done|].
  rewrite IH. apply Permutation_swap.
Qed.

Lemma insert_pos_hd x i p :
  (x ≤ key i)%Z → HdRel Z.le x (key <$> p) →
  HdRel Z.le x (key <$> Np.insert_pos a i p).
Proof.
  intros Hx Hp. destruct p as [|j p]; simpl; [by constructor|].
  destruct (Np.goes_first a i j); simpl; constructor; [done|].
  by apply HdRel_inv in Hp.
Qed.

Lemma insert_pos_sorted i p :
  Sorted Z.le (key <$> p) → Sorted Z.le (key <$> Np.insert_pos a i p).
Proof.
  induction p as [|j p IH]; simpl; intros Hs.
  - repeat constructor.
  - destruct (Np.goes_first a i j) eqn:E; simpl.
    + constructor; [done|]. constructor. by apply goes_first_le.
    + apply Sorted_inv in Hs as [Hs Hhd]. constructor; [by apply IH|].
      apply insert_pos_hd; [|done]. by apply goes_first_ge.
Qed.

Lemma argsort_ins_ok : Np.is_argsort a (Np.argsort_ins a).
Proof.
  unfold Np.is_argsort, Np.argsort_ins. fold key.
  generalize (seq 0 (length a)). intros l. split.
  - induction l as [|i l IH]; simpl; [done|].
    by rewrite insert_pos_perm, IH.
  - induction l as [|i l IH]; simpl; [constructor|].
    by apply insert_pos_sorted.
Qed.

End ArgsortIns.

(** ** The owner side of the plan *)

Section OwnersPlan.

Variable argsort : list Z → list nat.
Variable im : IndexMap.

Let od := build_owners argsort im.
Let gather (b : list nat) : list Z := (λ i, ghosts im !!! i) <$> b.

Lemma build_owners_eq :
  od = {| owners_idx := argsort (owners im);
          owners_size := (Np.unique_counts (owners im)).2;
          owners_offsets :=
            Np.insert (Np.cumsum (Np.unique_counts (owners im)).2) 0 0;
          unique_owners := (Np.unique_counts (owners im)).1 |}.
Proof. done. Qed.

Lemma owners_lengths : length (unique_owners od) = length (owners_size od).
Proof. apply unique_counts_length. Qed.

Lemma owners_size_sum : sum_list (owners_size od) = length (owners im).
Proof. apply unique_counts_sum. Qed.

Hypothesis Hwf : wf_imap im.
Hypothesis Hsort : Np.is_argsort (owners im) (argsort (owners im)).

Lemma owners_idx_slots : Forall (λ i, i < length (ghosts im)) (owners_idx od).
Proof.
  rewrite <- (wf_owners _ Hwf). by apply is_argsort_slots.
Qed.

(** The positions of one piece all have the owner of the piece. *)
Lemma owners_chunks :
  (λ b : list nat, (λ i, owners im !!! i) <$> b)
    <$> chunks (owners_size od) (owners_idx od)
  = (λ uc, replicate uc.2 uc.1) <$> Np.runs (Np.sort (owners im)).
Proof.
  rewrite <- chunks_fmap. simpl.
  rewrite (is_argsort_sort _ _ Hsort).
  change (owners_size od) with (Np.runs (Np.sort (owners im))).*2.
  etrans; [|apply chunks_runs]. by rewrite runs_expand.
Qed.

Lemma chunk_slots i b :
  chunks (owners_size od) (owners_idx od) !! i = Some b →
  Forall (λ s, s < length (ghosts im)) b.
Proof.
  intros Hb. rewrite Forall_forall. intros s Hs.
  pose proof owners_idx_slots as Hall. rewrite Forall_forall in Hall.
  apply Hall. rewrite <- (chunks_concat (owners_size od) (owners_idx od)).
  - apply list_elem_of_In, in_concat. exists b.
    split; apply list_elem_of_In; [|done].
    by apply list_elem_of_lookup_2 in Hb.
  - rewrite owners_size_sum. symmetry. by apply is_argsort_length.
Qed.

Lemma fill_send_spec us i s :
  length s = i + length us →
  i + length us = length (owners_size od) →
  fill_send im od i us s
  = Some (take i s ++ drop i (gather <$> chunks (owners_size od) (owners_idx od))).
Proof.
  pose proof chunk_slots as Hslots.
  assert (owners_offsets od = Np.insert (Np.cumsum (owners_size od)) 0 0)
    as Hoff by done.
  clearbody od.
  revert i s. induction us as [|u us IH]; intros i s Hs Hi; simpl in *.
  - rewrite take_ge by lia. rewrite drop_ge.
    + by rewrite app_nil_r.
    + rewrite length_fmap, chunks_length. lia.
  - rewrite Hoff, !offsets_lookup by lia.
    destruct (chunks (owners_size od) (owners_idx od) !! i) as [b|] eqn:Hb.
    2:{ apply lookup_ge_None_1 in Hb. rewrite chunks_length in Hb. lia. }
    pose proof Hb as Hb'. rewrite chunks_lookup in Hb' by lia.
    injection Hb' as Hb'. replace (i + 1) with (S i) by lia.
    rewrite Hb'. rewrite (take_idx_total _ b) by (by eapply Hslots).
    destruct (s !! i) as [z|] eqn:Hz.
    2:{ apply lookup_ge_None_1 in Hz. lia. }
    rewrite IH by (rewrite ?length_insert; lia). f_equal.
    rewrite (take_S_r _ i (gather b)).
    2:{ apply list_lookup_insert_eq. lia. }
    rewrite take_insert_ge by lia. rewrite <- app_assoc. f_equal. simpl.
    symmetry. apply drop_S. by rewrite list_lookup_fmap, Hb.
Qed.

Lemma send_buff_idx_spec :
  build_send_buff_idx im od
  = Some (gather <$> chunks (owners_size od) (owners_idx od)).
Proof.
  unfold build_send_buff_idx. rewrite fill_send_spec.
  - by rewrite take_0, drop_0.
  - rewrite length_fmap. simpl. symmetry. apply owners_lengths.
  - simpl. apply owners_lengths.
Qed.

End OwnersPlan.

(** ** The destination side of the plan *)

Section Counting.

Context {A B : Type} (P : A → B → Prop) `{∀ a b, Decision (P a b)}.

Lemma sum_list_with_zero (D : list B) : sum_list_with (λ _, 0) D = 0.
Proof. induction D; simpl; lia. Qed.

Lemma count_cons a (U : list A) (D : list B) :
  sum_list_with (λ b, length (filter (λ a', P a' b) (a :: U))) D
  = length (filter (P a) D)
    + sum_list_with (λ b, length (filter (λ a', P a' b) U)) D.
Proof.
  induction D as [|b D IH]; simpl; [done|].
  rewrite IH, !filter_cons. repeat case_decide; simpl; lia.
Qed.

(** Counting the pairs of a relation by rows or by columns. *)
Lemma count_swap (U : list A) (D : list B) :
  sum_list_with (λ a, length (filter (P a) D)) U
  = sum_list_with (λ b, length (filter (λ a, P a b) U)) D.
Proof.
  induction U as [|a U IH]; simpl.
  - by rewrite sum_list_with_zero.
  - by rewrite count_cons, IH.
Qed.

End Counting.

Lemma sum_list_with_ext_in {A} (f g : A → nat) (l : list A) :
  (∀ x, x ∈ l → f x = g x) → sum_list_with f l = sum_list_with g l.
Proof.
  induction l as [|x l IH]; intros Hfg; simpl; [done|].
  rewrite Hfg by apply list_elem_of_here.
  rewrite IH; [done|]. intros y Hy. apply Hfg. by apply list_elem_of_further.
Qed.

Lemma length_flat_replicate {A} (c : A → nat) (U : list A) :
  length (flat_map (λ r, replicate (c r) r) U) = sum_list_with c U.
Proof.
  induction U as [|r U IH]; simpl; [done|].
  by rewrite length_app, length_replicate, IH.
Qed.

Lemma filter_elem_remove_dups (L U : list Z) :
  NoDup U → (∀ x, x ∈ L → x ∈ U) →
  length (filter (λ r, r ∈ L) U) = length (remove_dups L).
Proof.
  intros HU Hsub. apply Permutation_length, NoDup_Permutation.
  - by apply NoDup_filter.
  - apply NoDup_remove_dups.
  - intros x. rewrite list_elem_of_filter, elem_of_remove_dups.
    split; [by intros [? _]|]. intros Hx. split; [done|]. by apply Hsub.
Qed.

Section DestPlan.

Variable adj : list (list Z).

Lemma for_dofs_spec r dofs acc :
  Forall (λ d, d < length adj) dofs →
  for_dofs adj r dofs acc
  = Some (acc ++ replicate (length (filter (λ dof, r ∈ adj !!! dof) dofs)) r).
Proof.
  intros Hall. revert acc.
  induction Hall as [|d dofs Hd _ IH]; intros acc; simpl.
  - by rewrite app_nil_r.
  - rewrite (list_lookup_lookup_total_lt adj d) by done.
    rewrite IH, filter_cons. f_equal.
    case_bool_decide; case_decide; try done.
    simpl. by rewrite <- app_assoc.
Qed.

Lemma for_ranks_spec n ranks acc :
  n ≤ length adj →
  for_ranks adj n ranks acc
  = Some (acc ++ flat_map (λ r, replicate (shared_count adj n r) r) ranks).
Proof.
  intros Hn. revert acc. induction ranks as [|r ranks IH]; intros acc; simpl.
  - by rewrite app_nil_r.
  - rewrite for_dofs_spec.
    + rewrite IH. by rewrite <- app_assoc.
    + rewrite Forall_forall. intros d Hd%elem_of_seq. lia.
Qed.

Lemma length_pairs_of (dof : nat) (l : list Z) :
  length (l ≫= λ r, [(dof, r)]) = length l.
Proof. induction l as [|r l IH]; [done|]. rewrite bind_cons. simpl. by rewrite IH. Qed.

End DestPlan.

Lemma dest_list_spec im :
  wf_imap im →
  dest_list im
  = Some (flat_map (λ r, replicate (shared_count (index_to_dest_ranks im) (size_local im) r) r)
            (Np.unique (adj_array (index_to_dest_ranks im)))).
Proof.
  intros Hwf. unfold dest_list. rewrite for_ranks_spec by apply Hwf. done.
Qed.

Lemma dest_pairs_length im :
  length (dest_pairs im)
  = sum_list_with (λ dof, length (remove_dups (index_to_dest_ranks im !!! dof)))
      (seq 0 (size_local im)).
Proof.
  unfold dest_pairs. induction (seq 0 (size_local im)) as [|d l IH]; [done|].
  rewrite bind_cons, length_app, IH. simpl. by rewrite length_pairs_of.
Qed.

(** The list built by the loops has one entry for every pair. *)
Lemma dest_list_length im g :
  wf_imap im → dest_list im = Some g → length g = length (dest_pairs im).
Proof.
  intros Hwf. rewrite dest_list_spec by done. intros [= <-].
  rewrite length_flat_replicate, dest_pairs_length. unfold shared_count.
  rewrite (count_swap (λ r dof, r ∈ index_to_dest_ranks im !!! dof)).
  apply sum_list_with_ext_in. intros dof Hdof%elem_of_seq.
  apply filter_elem_remove_dups; [apply unique_NoDup|].
  intros x Hx. apply unique_elem. unfold adj_array.
  apply list_elem_of_In, in_concat. exists (index_to_dest_ranks im !!! dof).
  split; apply list_elem_of_In; [|done].
  apply list_elem_of_lookup_total_2. pose proof (wf_nodes _ Hwf). lia.
Qed.

(** ** The events of the exchange *)

Section Events.

Lemma log_nil s : log [] s = s.
Proof. destruct s. unfold log. simpl. by rewrite app_nil_r. Qed.

Lemma log_log t1 t2 s : log t2 (log t1 s) = log (t1 ++ t2) s.
Proof. unfold log. simpl. by rewrite app_assoc. Qed.

Lemma filter_post_none t :
  Forall (λ e, is_post e = false) t → filter (λ e, is_post e = true) t = [].
Proof.
  induction 1 as [|e t He _ IH]; [done|].
  rewrite filter_cons_False; [done|]. by rewrite He.
Qed.

Lemma posted_log t s :
  Forall (λ e, is_post e = false) t → posted s → posted (log t s).
Proof.
  unfold posted, log. simpl. intros Ht Hs. rewrite filter_app, Hs.
  by rewrite filter_post_none, app_nil_r.
Qed.

Lemma quiet_ret {A} (a : A) : quiet (ret a).
Proof.
  intros s o s' [= <- <-]. split; [|done].
  exists []. by rewrite app_nil_r.
Qed.

Lemma quiet_raise {A} e : quiet (raise (A:=A) e).
Proof.
  intros s o s' [= <- <-]. split; [|done].
  exists []. by rewrite app_nil_r.
Qed.

Lemma quiet_index {A} (x : option A) : quiet (index x).
Proof. destruct x; [apply quiet_ret|apply quiet_raise]. Qed.

Lemma quiet_bind {A B} (m : M A) (k : A → M B) :
  quiet m → (∀ a, quiet (k a)) → quiet (bind m k).
Proof.
  intros Hm Hk s o s'. unfold bind.
  destruct (m s) as [[a| |e] s1] eqn:E.
  - intros Hks. destruct (Hm _ _ _ E) as [(t1 & Ht1 & Hw1) Hp1].
    destruct (Hk _ _ _ _ Hks) as [(t2 & Ht2 & Hw2) Hp2]. split; [|by auto].
    exists (t1 ++ t2). rewrite Ht2, Ht1, app_assoc. split; [done|].
    by apply Forall_app.
  - intros [= <- <-]. by apply (Hm _ _ _ E).
  - intros [= <- <-]. by apply (Hm _ _ _ E).
Qed.

Lemma quiet_emit e : is_wait e = false → is_post e = false → quiet (emit e).
Proof.
  intros Hw Hp s o s' [= <- <-]. split.
  - exists [e]. split; [done|]. by constructor.
  - intros Hs. apply (posted_log [e]); [|done]. by constructor.
Qed.

Lemma quiet_to_device a : quiet (to_device a).
Proof. by apply quiet_emit. Qed.

Lemma quiet_to_device_recv a : quiet (to_device_recv a).
Proof.
  intros s o s' [= <- <-]. split.
  - exists [EvToDevice a]. split; [done|]. by constructor.
  - unfold posted. simpl. intros Hs. rewrite filter_app, Hs. simpl.
    by rewrite app_nil_r.
Qed.

Lemma quiet_to_device_all bufs : quiet (to_device_all bufs).
Proof.
  induction bufs as [|b bufs IH]; simpl; [apply quiet_ret|].
  apply quiet_bind; [apply quiet_to_device|done].
Qed.

Lemma quiet_send_loop bufs i us : quiet (send_loop bufs i us).
Proof.
  revert i. induction us as [|u us IH]; intros i; simpl; [apply quiet_ret|].
  apply quiet_bind; [apply quiet_index|]. intros _.
  apply quiet_bind; [by apply quiet_emit|]. intros _. apply IH.
Qed.

(** A receive and its registration in [all_requests], taken together. *)
Lemma quiet_post {A} c begin end_ source (k : M A) :
  quiet k →
  quiet (reqr <- Irecv c begin end_ source; append_request reqr;;; k).
Proof.
  intros Hk s o s'. unfold bind, Irecv.
  destruct (decide (is_source c source)) as [Hsrc|Hsrc].
  - unfold bind, emit, append_request, ret. simpl.
    intros Hks. destruct (Hk _ _ _ Hks) as [(t & Ht & Hw) Hp]. simpl in *.
    split.
    + eexists (_ :: t). rewrite Ht, <- app_assoc. split; [done|].
      by constructor.
    + intros Hs. apply Hp. unfold posted in *. simpl.
      rewrite filter_app, Hs, fmap_app. done.
  - unfold raise. intros [= <- <-]. split; [|done].
    exists []. by rewrite app_nil_r.
Qed.

Lemma quiet_recv_loop c offsets i us : quiet (recv_loop c offsets i us).
Proof.
  revert i. induction us as [|u us IH]; intros i; simpl; [apply quiet_ret|].
  apply quiet_bind; [apply quiet_index|]. intros begin.
  apply quiet_bind; [apply quiet_index|]. intros end_.
  apply quiet_post, IH.
Qed.

Lemma quiet_post_phase c argsort im : quiet (post_phase c argsort im).
Proof.
  unfold post_phase.
  apply quiet_bind; [apply quiet_to_device|]. intros _.
  apply quiet_bind; [apply quiet_index|]. intros g.
  destruct (ghost_groups g) as [[us cs] offs].
  apply quiet_bind; [apply quiet_index|]. intros bufs.
  apply quiet_bind; [apply quiet_to_device_all|]. intros _.
  apply quiet_bind; [apply quiet_send_loop|]. intros _.
  apply quiet_bind; [apply quiet_to_device_recv|]. intros _.
  apply quiet_bind; [apply quiet_recv_loop|]. intros _.
  apply quiet_ret.
Qed.

Lemma silent_ret {A} (a : A) : silent (ret a).
Proof. intros s o s' [= <- <-]. exists []. by rewrite app_nil_r. Qed.

Lemma silent_bind {A B} (m : M A) (k : A → M B) :
  silent m → (∀ a, silent (k a)) → silent (bind m k).
Proof.
  intros Hm Hk s o s'. unfold bind.
  destruct (m s) as [[a| |e] s1] eqn:E.
  - intros Hks. destruct (Hm _ _ _ E) as (t1 & Ht1 & Hw1).
    destruct (Hk _ _ _ _ Hks) as (t2 & Ht2 & Hw2).
    exists (t1 ++ t2). rewrite Ht2, Ht1, app_assoc. split; [done|].
    by apply Forall_app.
  - intros [= <- <-]. by apply (Hm _ _ _ E).
  - intros [= <- <-]. by apply (Hm _ _ _ E).
Qed.

Lemma silent_to_device a : silent (to_device a).
Proof.
  intros s o s' [= <- <-]. exists [EvToDevice a]. split; [done|].
  by constructor.
Qed.

Lemma silent_copy_to_host : silent copy_to_host.
Proof.
  intros s o s' [= <- <-]. exists [EvCopyToHost]. split; [done|].
  by constructor.
Qed.

(** The wait awaits the requests of [all_requests]; nothing is posted
    after it. *)
Lemma wait_phase_trace c env im od gg s o s' :
  wait_phase c env im od gg s = (o, s') →
  ∃ t, trace s' = trace s ++ EvWaitall (all_requests s) :: t
       ∧ Forall (λ e, is_wait e = false ∧ is_post e = false) t.
Proof.
  destruct gg as [[us cs] offs]. unfold wait_phase, bind at 1.
  destruct (Waitall c env s) as [[[]| |e] s1] eqn:E.
  - intros Hrest.
    assert (silent (recv_buff_idx <- copy_to_host;
                    to_device (to_local recv_buff_idx im);;;
                    ret (od, {| ghosts_idx := to_local recv_buff_idx im;
                                ghosts_size := cs; ghosts_offsets := offs;
                                unique_ghosts := us |}))) as Hsil.
    { apply silent_bind; [apply silent_copy_to_host|]. intros b.
      apply silent_bind; [apply silent_to_device|]. intros _.
      apply silent_ret. }
    destruct (Hsil _ _ _ Hrest) as (t & Ht & Hall).
    exists t. split; [|done]. rewrite Ht.
    unfold Waitall in E. repeat case_match; simplify_eq. simpl.
    by rewrite <- app_assoc.
  - intros [= <- <-]. exists []. split; [|done].
    unfold Waitall in E. repeat case_match; by simplify_eq.
  - intros [= <- <-]. exists []. split; [|done].
    unfold Waitall in E. repeat case_match; by simplify_eq.
Qed.

Lemma fired_then_waited_quiet t :
  Forall (λ e, is_wait e = false) t → fired_then_waited t.
Proof.
  intros Hall. rewrite Forall_lookup in Hall. split.
  - intros i j e1 e2 H1 _ Hw _. apply Hall in H1. congruence.
  - intros i rs Hi. by apply Hall in Hi.
Qed.

Lemma fired_then_waited_app t rs t' :
  Forall (λ e, is_wait e = false) t →
  filter (λ e, is_post e = true) t = EvIrecv <$> rs →
  Forall (λ e, is_wait e = false ∧ is_post e = false) t' →
  fired_then_waited (t ++ EvWaitall rs :: t').
Proof.
  intros Ht Hrs Ht'. rewrite Forall_lookup in Ht. rewrite Forall_lookup in Ht'.
  assert (∀ i e, (t ++ EvWaitall rs :: t') !! i = Some e →
                 is_wait e = true → i = length t ∧ e = EvWaitall rs) as Hwait.
  { intros i e Hi Hw. apply lookup_app_Some in Hi as [Hi|[Hlen Hi]].
    - apply Ht in Hi. congruence.
    - destruct (i - length t) as [|k] eqn:Ek; simpl in Hi.
      + split; [lia|congruence].
      + apply Ht' in Hi as [? _]. congruence. }
  split.
  - intros i j e1 e2 H1 H2 Hw Hp. apply Hwait in H1 as [-> ->]; [|done].
    apply lookup_app_Some in H2 as [H2|[Hlen H2]].
    + by apply lookup_lt_Some in H2.
    + destruct (j - length t) as [|k] eqn:Ek; simpl in H2.
      * by simplify_eq.
      * apply Ht' in H2 as [_ ?]. congruence.
  - intros i rs' Hi. apply Hwait in Hi as [_ [= ->]]; [|done].
    rewrite filter_app, Hrs, filter_cons_False by done.
    rewrite filter_post_none; [by rewrite app_nil_r|].
    rewrite Forall_lookup. intros k e Hk. by apply Ht' in Hk as [_ Hk].
Qed.

End Events.

(** ** The run of the script on a well-formed index map *)

Section Run.

Lemma bind_done {A B} (m : M A) (k : A → M B) s a s' :
  m s = (Done a, s') → bind m k s = k a s'.
Proof. unfold bind. by intros ->. Qed.

Lemma emit_run e s : emit e s = (Done (), log [e] s).
Proof. done. Qed.

Lemma to_device_all_run bufs s :
  to_device_all bufs s = (Done (), log (EvToDevice <$> bufs) s).
Proof.
  revert s. induction bufs as [|b bufs IH]; intros s; simpl.
  - by rewrite log_nil.
  - erewrite bind_done by apply emit_run. by rewrite IH, log_log.
Qed.

Lemma send_loop_run (bufs : list (list Z)) i us s :
  i + length us ≤ length bufs →
  send_loop bufs i us s = (Done (), log (replicate (length us) EvPrint) s).
Proof.
  revert i s. induction us as [|u us IH]; intros i s Hi; simpl in *.
  - by rewrite log_nil.
  - destruct (bufs !! i) as [b|] eqn:Hb.
    2:{ apply lookup_ge_None_1 in Hb. lia. }
    simpl. erewrite (bind_done (ret b)) by done.
    erewrite bind_done by apply emit_run.
    rewrite IH by lia. by rewrite log_log.
Qed.

Lemma post_all_nil s : post_all [] s = s.
Proof. destruct s. unfold post_all. simpl. by rewrite !app_nil_r. Qed.

Lemma post_all_cons r rs s : post_all rs (post_all [r] s) = post_all (r :: rs) s.
Proof. unfold post_all. simpl. by rewrite <- !app_assoc. Qed.

Lemma accepted_all c us : Forall (is_source c) us → accepted c us = us.
Proof.
  induction 1 as [|u us Hu _ IH]; simpl; [done|].
  by rewrite decide_True, IH.
Qed.

Lemma accepted_take c us : accepted c us = take (length (accepted c us)) us.
Proof.
  induction us as [|u us IH]; simpl; [done|].
  case_decide; simpl; [by f_equal|done].
Qed.

(** The end of the receive loop: it raises at the first source that
    [Irecv] refuses. *)
Definition loop_end (c : communicator) (us : list Z) : outcome unit :=
  if decide (Forall (is_source c) us) then Done () else Raised MPIError.

Lemma loop_end_cons c u us :
  is_source c u → loop_end c (u :: us) = loop_end c us.
Proof.
  intros Hu. unfold loop_end.
  destruct (decide (Forall (is_source c) us)) as [H|H].
  - rewrite decide_True; [done|]. by constructor.
  - rewrite decide_False; [done|]. by intros [_ ?]%Forall_cons.
Qed.

Lemma loop_end_refused c u us : ¬ is_source c u → loop_end c (u :: us) = Raised MPIError.
Proof.
  intros Hu. unfold loop_end. rewrite decide_False; [done|].
  by intros [? _]%Forall_cons.
Qed.

Lemma recv_loop_run c cs i us s :
  i + length us ≤ length cs →
  recv_loop c (Np.insert (Np.cumsum cs) 0 0) i us s
  = (loop_end c us, post_all (imap (λ k, req_at cs (i + k)) (accepted c us)) s).
Proof.
  revert i s. induction us as [|u us IH]; intros i s Hi; simpl in *.
  - by rewrite post_all_nil.
  - rewrite !offsets_lookup by lia. simpl.
    erewrite (bind_done (ret _)) by done.
    erewrite (bind_done (ret _)) by done.
    replace (i + 1) with (S i) by lia. unfold Irecv.
    destruct (decide (is_source c u)) as [Hu|Hu].
    + rewrite loop_end_cons by done.
      change (bind (emit (EvIrecv ?r);;; ret ?r) ?k s) with (k r (log [EvIrecv r] s)).
      cbv beta.
      change (bind (append_request ?r) ?k ?s0) with
        (k () {| trace := trace s0; all_requests := all_requests s0 ++ [r];
                 recv_buff_idx_d := recv_buff_idx_d s0 |}).
      cbv beta. rewrite IH by lia. simpl.
      replace (i + 0) with i by lia. f_equal.
      rewrite <- post_all_cons. f_equal. apply imap_ext. intros k x _. simpl.
      f_equal. lia.
    + rewrite loop_end_refused by done. simpl. by rewrite post_all_nil.
Qed.

Variable argsort : list Z → list nat.
Variable im : IndexMap.
Hypothesis Hwf : wf_imap im.
Hypothesis Hsort : Np.is_argsort (owners im) (argsort (owners im)).

Lemma post_phase_run c :
  post_phase c argsort im init
  = (match loop_end c (ghost_groups (dest_ranks_list im)).1.1 with
     | Done _ =>
         Done (build_owners argsort im, ghost_groups (dest_ranks_list im))
     | Blocked => Blocked
     | Raised e => Raised e
     end,
     state_posted c argsort im).
Proof.
  unfold post_phase, state_posted.
  erewrite bind_done by apply emit_run.
  rewrite dest_list_spec by done. fold (dest_ranks_list im).
  erewrite (bind_done (index _)) by done.
  assert (ghost_groups (dest_ranks_list im)
          = ((Np.unique_counts (dest_ranks_list im)).1,
             (Np.unique_counts (dest_ranks_list im)).2,
             Np.insert (Np.cumsum (Np.unique_counts (dest_ranks_list im)).2) 0 0))
    as -> by done.
  set (us := (Np.unique_counts (dest_ranks_list im)).1).
  set (cs := (Np.unique_counts (dest_ranks_list im)).2).
  rewrite send_buff_idx_spec by done. fold (send_bufs im (build_owners argsort im)).
  erewrite (bind_done (index _)) by done.
  erewrite bind_done by apply to_device_all_run.
  erewrite bind_done.
  2:{ apply send_loop_run. unfold send_bufs.
      rewrite length_fmap, chunks_length.
      pose proof (owners_lengths argsort im). simpl in *. lia. }
  change (bind (to_device_recv ?a) ?k ?s0) with
    (k () {| trace := trace s0 ++ [EvToDevice a];
             all_requests := all_requests s0; recv_buff_idx_d := a |}).
  cbv beta. unfold bind at 1. rewrite recv_loop_run.
  2:{ simpl. unfold us, cs. by rewrite unique_counts_length. }
  cbn [fst snd].
  assert (post_all (imap (λ k, req_at cs (0 + k)) (accepted c us))
            {| trace := trace (log (replicate (length (unique_owners (build_owners argsort im))) EvPrint)
                                (log (EvToDevice <$> send_bufs im (build_owners argsort im))
                                   (log [EvToDevice (Z.of_nat <$> owners_idx (build_owners argsort im))] init)))
                        ++ [EvToDevice (zeros (Np.sum cs))];
               all_requests := all_requests (log (replicate (length (unique_owners (build_owners argsort im))) EvPrint)
                                (log (EvToDevice <$> send_bufs im (build_owners argsort im))
                                   (log [EvToDevice (Z.of_nat <$> owners_idx (build_owners argsort im))] init)));
               recv_buff_idx_d := zeros (Np.sum cs) |}
          = {| trace := EvToDevice (Z.of_nat <$> owners_idx (build_owners argsort im))
                        :: (EvToDevice <$> send_bufs im (build_owners argsort im))
                        ++ replicate (length (unique_owners (build_owners argsort im))) EvPrint
                        ++ EvToDevice (zeros (Np.sum cs))
                        :: (EvIrecv <$> recv_requests (accepted c us) cs);
               all_requests := recv_requests (accepted c us) cs;
               recv_buff_idx_d := zeros (Np.sum cs) |}) as ->.
  { unfold post_all, recv_requests. simpl. f_equal.
    rewrite <- !app_assoc. done. }
  by destruct (loop_end c us) as [[]| |e].
Qed.

Lemma wait_phase_run c env od gg s :
  wait_phase c env im od gg s = wait_result c env im od gg s.
Proof.
  destruct gg as [[us cs] offs].
  unfold wait_phase, wait_result, bind, Waitall, copy_to_host, to_device,
    emit, ret, log. simpl.
  destruct (forallb (matched c env) (all_requests s)); [|done].
  destruct (forallb (fits c env (recv_buff_idx_d s)) (all_requests s)); [|done].
  simpl. by rewrite <- app_assoc.
Qed.

(** The run in closed form: it raises in the receive loop when a
    destination rank is no source of the communicator, and goes on to
    the wait otherwise. *)
Lemma run_plan_run c env :
  run_plan c env argsort im
  = if decide (Forall (is_source c) (ghost_groups (dest_ranks_list im)).1.1)
    then wait_result c env im (build_owners argsort im)
           (ghost_groups (dest_ranks_list im)) (state_posted c argsort im)
    else (Raised MPIError, state_posted c argsort im).
Proof.
  unfold run_plan, build_plan, bind. rewrite post_phase_run. unfold loop_end.
  case_decide; [|done]. apply wait_phase_run.
Qed.

End Run.
(** ** The requests of a run *)

Lemma posted_init : posted init.
Proof. done. Qed.

(** What a completed run returns, for any index map. *)
Lemma post_phase_result c argsort im s x s' :
  post_phase c argsort im s = (Done x, s') →
  x.1 = build_owners argsort im
  ∧ ∃ g, dest_list im = Some g ∧ x.2 = ghost_groups g.
Proof.
  unfold post_phase, bind, index, ret, raise. intros H.
  repeat (case_match; simplify_eq). split; [done|]. by eexists.
Qed.

Lemma run_plan_result c env argsort im od gd s :
  run_plan c env argsort im = (Done (od, gd), s) →
  od = build_owners argsort im
  ∧ (∃ g, dest_list im = Some g
          ∧ (unique_ghosts gd, ghosts_size gd, ghosts_offsets gd)
            = ghost_groups g)
  ∧ ghosts_idx gd = to_local (recv_buff_idx_d s) im.
Proof.
  unfold run_plan, build_plan, bind.
  destruct (post_phase c argsort im init) as [[x| |e] s1] eqn:E; [|done..].
  apply post_phase_result in E as [Hod (g & Hg & Hgg)].
  rewrite wait_phase_run. unfold wait_result.
  repeat case_match; try done. intros [= <- <- <-]. simpl.
  split; [done|]. split; [|done].
  exists g. split; [done|]. rewrite <- Hgg. by destruct (x.2) as [[??]?].
Qed.

Lemma wait_result_posted c env im od gg s :
  posted s → posted (wait_result c env im od gg s).2.
Proof.
  unfold posted, wait_result. intros Hs.
  repeat case_match; simpl; rewrite ?filter_app, Hs; simpl;
    by rewrite ?app_nil_r.
Qed.

(** In every run, however it ends, the posted events are the receives
    of [all_requests]. *)
Lemma run_plan_posted c env argsort im : posted (run_plan c env argsort im).2.
Proof.
  unfold run_plan, build_plan, bind.
  destruct (post_phase c argsort im init) as [o s1] eqn:E.
  destruct (quiet_post_phase _ _ _ _ _ _ E) as [_ Hposted].
  specialize (Hposted posted_init).
  destruct o as [x| |e]; simpl; [|done..].
  rewrite wait_phase_run. by apply wait_result_posted.
Qed.

Lemma wait_result_requests c env im od gg s :
  all_requests (wait_result c env im od gg s).2 = all_requests s.
Proof. unfold wait_result. by repeat case_match. Qed.

Lemma recv_requests_lookup us cs i r :
  recv_requests us cs !! i = Some r ↔ ∃ u, us !! i = Some u ∧ r = req_at cs i u.
Proof.
  unfold recv_requests. rewrite list_lookup_imap.
  destruct (us !! i) as [u|]; simpl.
  - split; [intros [= <-]; by exists u|]. by intros (u' & [= <-] & ->).
  - split; [done|]. by intros (u' & ? & _).
Qed.

Lemma recv_requests_sources us cs : req_source <$> recv_requests us cs = us.
Proof.
  apply list_eq. intros i. unfold recv_requests.
  rewrite list_lookup_fmap, list_lookup_imap. by destruct (us !! i).
Qed.

Lemma recv_requests_source us cs r :
  r ∈ recv_requests us cs → req_source r ∈ us.
Proof.
  unfold recv_requests. intros (i & u & -> & Hu)%elem_of_lookup_imap_1.
  simpl. by eapply list_elem_of_lookup_2.
Qed.

Lemma recv_requests_length us cs : length (recv_requests us cs) = length us.
Proof. unfold recv_requests. apply length_imap. Qed.

(** The requests of the sources that [Irecv] accepts are the first
    requests of all sources. *)
Lemma recv_requests_accepted c us cs i r :
  recv_requests (accepted c us) cs !! i = Some r →
  recv_requests us cs !! i = Some r.
Proof.
  rewrite !recv_requests_lookup. intros (u & Hu & ->). exists u.
  split; [|done]. rewrite accepted_take in Hu.
  by apply lookup_take_Some in Hu as [Hu _].
Qed.

Lemma state_posted_requests c argsort im :
  all_requests (state_posted c argsort im)
  = recv_requests (accepted c (Np.unique (dest_ranks_list im)))
      (Np.unique_counts (dest_ranks_list im)).2.
Proof. done. Qed.

Lemma state_posted_buffer c argsort im :
  recv_buff_idx_d (state_posted c argsort im)
  = zeros (Np.sum (Np.unique_counts (dest_ranks_list im)).2).
Proof. done. Qed.

(** The requests of a run on a well-formed index map, however it
    ends. *)
Lemma run_plan_all_requests c env argsort im :
  wf_imap im → Np.is_argsort (owners im) (argsort (owners im)) →
  all_requests (run_plan c env argsort im).2
  = recv_requests (accepted c (ghost_groups (dest_ranks_list im)).1.1)
      (ghost_groups (dest_ranks_list im)).1.2.
Proof.
  intros Hwf Hsort. rewrite run_plan_run by done.
  case_decide; [by rewrite wait_result_requests|done].
Qed.

(** ** The groupings of the plan *)

Lemma im_ex_wf : wf_imap im_ex.
Proof. split; simpl; lia. Qed.

Lemma concat_fmap_fmap {A B} (f : A → B) (ls : list (list A)) :
  concat ((λ b : list A, f <$> b) <$> ls) = f <$> concat ls.
Proof.
  induction ls as [|l ls IH]; simpl; [done|]. rewrite fmap_app. f_equal.
  apply IH.
Qed.

Section OwnerGroups.

Variable argsort : list Z → list nat.
Variable im : IndexMap.
Hypothesis Hwf : wf_imap im.
Hypothesis Hsort : Np.is_argsort (owners im) (argsort (owners im)).

Lemma owners_idx_NoDup : NoDup (owners_idx (build_owners argsort im)).
Proof.
  destruct Hsort as [Hp _]. simpl. rewrite Hp. apply NoDup_seq.
Qed.

Lemma owners_idx_chunks :
  concat (chunks (owners_size (build_owners argsort im)) (owners_idx (build_owners argsort im))) = owners_idx (build_owners argsort im).
Proof.
  apply chunks_concat. rewrite owners_size_sum. symmetry.
  by apply is_argsort_length.
Qed.

Lemma chunk_owner i b u :
  chunks (owners_size (build_owners argsort im)) (owners_idx (build_owners argsort im)) !! i = Some b →
  unique_owners (build_owners argsort im) !! i = Some u →
  (λ s, owners im !!! s) <$> b = replicate (length b) u
  ∧ owners_size (build_owners argsort im) !! i = Some (length b).
Proof.
  intros Hb Hu. pose proof (owners_chunks argsort im Hsort) as Hc.
  apply (f_equal (λ l, l !! i)) in Hc.
  rewrite !list_lookup_fmap, Hb in Hc. simpl in Hc.
  change (unique_owners (build_owners argsort im)) with (Np.runs (Np.sort (owners im))).*1 in Hu.
  change (owners_size (build_owners argsort im)) with (Np.runs (Np.sort (owners im))).*2.
  rewrite list_lookup_fmap in Hu. rewrite list_lookup_fmap.
  destruct (Np.runs (Np.sort (owners im)) !! i) as [[u' c]|]; [|done].
  simpl in *. injection Hu as ->. injection Hc as Hc.
  assert (length b = c) as <-.
  { apply (f_equal length) in Hc. by rewrite length_fmap, length_replicate in Hc. }
  done.
Qed.

Lemma chunk_owner_elem i b u s :
  chunks (owners_size (build_owners argsort im)) (owners_idx (build_owners argsort im)) !! i = Some b →
  unique_owners (build_owners argsort im) !! i = Some u → s ∈ b → owners im !!! s = u.
Proof.
  intros Hb Hu Hs. destruct (chunk_owner _ _ _ Hb Hu) as [Hrep _].
  apply (list_elem_of_fmap_2 (λ s, owners im !!! s)) in Hs.
  rewrite Hrep in Hs. by apply elem_of_replicate in Hs as [-> _].
Qed.

Lemma chunk_complete i b u s :
  chunks (owners_size (build_owners argsort im)) (owners_idx (build_owners argsort im)) !! i = Some b →
  unique_owners (build_owners argsort im) !! i = Some u →
  s < length (owners im) → owners im !!! s = u → s ∈ b.
Proof.
  intros Hb Hu Hs Hown.
  assert (s ∈ owners_idx (build_owners argsort im)) as Hin.
  { destruct Hsort as [Hp _]. simpl. rewrite Hp. apply elem_of_seq. lia. }
  rewrite <- owners_idx_chunks in Hin.
  apply list_elem_of_In, in_concat in Hin as (b' & Hb' & Hsb').
  apply list_elem_of_In, list_elem_of_lookup in Hb' as [j Hj].
  apply list_elem_of_In in Hsb'.
  destruct (unique_owners (build_owners argsort im) !! j) as [u'|] eqn:Hu'.
  2:{ apply lookup_ge_None_1 in Hu'. apply lookup_lt_Some in Hj.
      rewrite chunks_length in Hj.
      pose proof (owners_lengths argsort im). lia. }
  pose proof (chunk_owner_elem _ _ _ _ Hj Hu' Hsb') as Hown'.
  assert (i = j) as ->.
  { eapply NoDup_lookup; [apply (unique_NoDup (owners im))|exact Hu|].
    rewrite <- Hown, Hown'. exact Hu'. }
  congruence.
Qed.

Lemma chunk_group i b u :
  chunks (owners_size (build_owners argsort im)) (owners_idx (build_owners argsort im)) !! i = Some b →
  unique_owners (build_owners argsort im) !! i = Some u →
  b ≡ₚ filter (λ s, owners im !!! s = u) (seq 0 (num_ghosts im)).
Proof.
  intros Hb Hu. apply NoDup_Permutation.
  - pose proof Hb as Hb'.
    rewrite chunks_lookup in Hb' by (apply lookup_lt_Some in Hb;
                                     by rewrite chunks_length in Hb).
    injection Hb' as <-. unfold Np.slice.
    eapply sublist_NoDup; [apply owners_idx_NoDup|].
    etrans; [apply sublist_take|apply sublist_drop].
  - apply NoDup_filter, NoDup_seq.
  - intros s. rewrite list_elem_of_filter, elem_of_seq. split.
    + intros Hs. split; [by eapply chunk_owner_elem|].
      pose proof (chunk_slots argsort im Hwf Hsort i b Hb) as Hall.
      rewrite Forall_forall in Hall. apply Hall in Hs.
      unfold num_ghosts. lia.
    + intros [Hown Hs]. eapply chunk_complete; [done..| |done].
      rewrite (wf_owners _ Hwf). unfold num_ghosts in Hs. lia.
Qed.

End OwnerGroups.

(** C1, as the code has it: [np.argsort] is called with its default kind,
    which promises no order among equal keys.  [owners_idx] holds every
    ghost slot once, ordered by non-decreasing owner rank; the offsets are
    the prefix sums of the per-owner counts, and the slice of owner [i]
    holds exactly the ghost slots owned by [unique_owners[i]], in an
    order the contract leaves open. *)
Theorem owners_idx_grouped_by_owner argsort im :
  wf_imap im → Np.is_argsort (owners im) (argsort (owners im)) →
  let od := build_owners argsort im in
  owners_idx od ≡ₚ seq 0 (num_ghosts im)
  ∧ Sorted Z.le ((λ s, owners im !!! s) <$> owners_idx od)
  ∧ (∀ i, i ≤ length (owners_size od) →
       owners_offsets od !! i = Some (sum_list (take i (owners_size od))))
  ∧ (∀ i u, unique_owners od !! i = Some u →
       ∃ b e, owners_offsets od !! i = Some b
              ∧ owners_offsets od !! (i + 1) = Some e
              ∧ owners_size od !! i = Some (e - b)
              ∧ Np.slice (owners_idx od) b e
                ≡ₚ filter (λ s, owners im !!! s = u) (seq 0 (num_ghosts im))).
Proof.
  intros Hwf Hsort. cbv zeta. split; [|split; [|split]].
  - destruct Hsort as [Hp _]. unfold num_ghosts.
    by rewrite <- (wf_owners _ Hwf).
  - apply Hsort.
  - intros i Hi. by apply offsets_lookup.
  - intros i u Hu.
    assert (i < length (owners_size (build_owners argsort im))) as Hi.
    { apply lookup_lt_Some in Hu.
      pose proof (owners_lengths argsort im). lia. }
    exists (sum_list (take i (owners_size (build_owners argsort im)))),
           (sum_list (take (S i) (owners_size (build_owners argsort im)))).
    pose proof (chunks_lookup (owners_size (build_owners argsort im)) (owners_idx (build_owners argsort im)) i Hi) as Hb.
    destruct (chunk_owner argsort im Hsort _ _ _ Hb Hu) as [_ Hc].
    split; [apply offsets_lookup; lia|].
    split; [replace (i + 1) with (S i) by lia; apply offsets_lookup; lia|].
    split; [|by eapply chunk_group].
    set (c := length _) in Hc. clearbody c. rewrite Hc. f_equal.
    rewrite (take_S_r _ _ _ Hc), sum_list_with_app. simpl. lia.
Qed.

Lemma owners_idx_grouped_by_owner_witness :
  wf_imap im_ex
  ∧ owners_idx (build_owners (Np.argsort_ins) im_ex)
    ≡ₚ seq 0 (num_ghosts im_ex).
Proof.
  split; [apply im_ex_wf|].
  apply (owners_idx_grouped_by_owner (Np.argsort_ins) im_ex im_ex_wf
           (argsort_ins_ok _)).
Defined.

(** The stable order fails on the code: the claim of C1 as it is
    written, that slots of one owner keep their order, is false for the
    index map [im_q].  NumPy's quicksort sorts its twenty ghost slots by
    owner and puts slot 16 before slot 5, both owned by rank 1. *)
Lemma stable_order_counterexample :
  wf_imap im_q
  ∧ owners_idx (build_owners Np.aquicksort im_q)
    = [0; 2; 16; 5; 13; 11; 8; 18; 17; 14; 9; 4; 1; 10; 7; 12; 6; 15; 3; 19]
  ∧ Np.is_argsort (owners im_q) (Np.aquicksort (owners im_q))
  ∧ ¬ keeps_slot_order (owners im_q)
        (owners_idx (build_owners Np.aquicksort im_q)).
Proof.
  assert (owners_idx (build_owners Np.aquicksort im_q)
          = [0; 2; 16; 5; 13; 11; 8; 18; 17; 14; 9; 4; 1; 10; 7; 12; 6; 15;
             3; 19]) as Hidx by (vm_compute; reflexivity).
  split; [split; simpl; lia|]. split; [done|]. split; [split|].
  - change (Np.aquicksort (owners im_q))
      with (owners_idx (build_owners Np.aquicksort im_q)).
    rewrite Hidx. etrans; [symmetry; apply (merge_sort_Permutation le)|].
    vm_compute. reflexivity.
  - change (Np.aquicksort (owners im_q))
      with (owners_idx (build_owners Np.aquicksort im_q)).
    rewrite Hidx. apply (bool_decide_unpack _). vm_compute. reflexivity.
  - rewrite Hidx. intros Hclaim.
    specialize (Hclaim 2 3 16 5 eq_refl eq_refl ltac:(lia) eq_refl). lia.
Qed.

(** C9: the buffers of global indices for the owners regroup the ghost
    list.  Buffer [i] has [owners_size[i]] entries, each the global index
    of a ghost slot owned by [unique_owners[i]], and all buffers together
    are a permutation of [imap.ghosts]. *)
Theorem send_buff_idx_regroups_ghosts argsort im :
  wf_imap im → Np.is_argsort (owners im) (argsort (owners im)) →
  let od := build_owners argsort im in
  ∃ bufs, build_send_buff_idx im od = Some bufs
    ∧ length bufs = length (unique_owners od)
    ∧ (∀ i buf u, bufs !! i = Some buf → unique_owners od !! i = Some u →
         owners_size od !! i = Some (length buf)
         ∧ ∀ j x, buf !! j = Some x →
             ∃ slot, ghosts im !! slot = Some x ∧ owners im !! slot = Some u)
    ∧ concat bufs ≡ₚ ghosts im.
Proof.
  intros Hwf Hsort. cbv zeta. exists (send_bufs im (build_owners argsort im)).
  split; [by apply send_buff_idx_spec|]. split; [|split].
  - unfold send_bufs. rewrite length_fmap, chunks_length.
    symmetry. apply owners_lengths.
  - intros i buf u Hbuf Hu. unfold send_bufs in Hbuf.
    rewrite list_lookup_fmap in Hbuf.
    destruct (chunks (owners_size (build_owners argsort im)) (owners_idx (build_owners argsort im)) !! i) as [b|] eqn:Hb;
      [|done].
    injection Hbuf as <-.
    destruct (chunk_owner argsort im Hsort _ _ _ Hb Hu) as [_ Hc].
    split; [by rewrite length_fmap|].
    intros j x Hx. rewrite list_lookup_fmap in Hx.
    destruct (b !! j) as [slot|] eqn:Hslot; [|done]. injection Hx as <-.
    apply list_elem_of_lookup_2 in Hslot.
    pose proof (chunk_slots argsort im Hwf Hsort i b Hb) as Hall.
    rewrite Forall_forall in Hall. pose proof (Hall _ Hslot) as Hlt.
    exists slot. split; [by apply list_lookup_lookup_total_lt|].
    rewrite <- (chunk_owner_elem argsort im Hsort _ _ _ _ Hb Hu Hslot).
    apply list_lookup_lookup_total_lt. by rewrite (wf_owners _ Hwf).
  - unfold send_bufs. rewrite concat_fmap_fmap.
    rewrite (owners_idx_chunks argsort im Hsort).
    apply (is_argsort_gather (owners im)); [done|].
    symmetry. apply Hwf.
Qed.

Lemma send_buff_idx_regroups_ghosts_witness :
  wf_imap im_ex
  ∧ ∃ bufs,
      build_send_buff_idx im_ex (build_owners (Np.argsort_ins) im_ex)
      = Some bufs ∧ concat bufs ≡ₚ ghosts im_ex.
Proof.
  split; [apply im_ex_wf|].
  destruct (send_buff_idx_regroups_ghosts (Np.argsort_ins) im_ex
              im_ex_wf (argsort_ins_ok _)) as (bufs & H1 & _ & _ & H4).
  by exists bufs.
Defined.

(** ** The exchange *)

(** C6: the groups partition the work.  The per-owner sizes add up to the
    number of ghosts, and the per-destination sizes to the number of
    (owned index, destination rank) pairs, on the groupings and on the
    plan of every run that completes. *)
Theorem plan_sizes_partition argsort im :
  wf_imap im →
  Np.sum (owners_size (build_owners argsort im)) = num_ghosts im
  ∧ (∃ g, dest_list im = Some g
          ∧ Np.sum (ghost_groups g).1.2 = length (dest_pairs im))
  ∧ (∀ c env od gd s, run_plan c env argsort im = (Done (od, gd), s) →
       Np.sum (owners_size od) = num_ghosts im
       ∧ Np.sum (ghosts_size gd) = length (dest_pairs im)).
Proof.
  intros Hwf.
  assert (Np.sum (owners_size (build_owners argsort im)) = num_ghosts im) as H1.
  { unfold Np.sum, num_ghosts. rewrite owners_size_sum. apply Hwf. }
  assert (∀ g, dest_list im = Some g →
               Np.sum (ghost_groups g).1.2 = length (dest_pairs im)) as H2.
  { intros g Hg. rewrite <- (dest_list_length im g Hwf Hg).
    apply unique_counts_sum. }
  split; [done|]. split.
  - exists (dest_ranks_list im). split; [by apply dest_list_spec|].
    apply H2. by apply dest_list_spec.
  - intros c env od gd s Hrun.
    apply run_plan_result in Hrun as (-> & (g & Hg & Hgg) & _).
    split; [done|]. rewrite <- (H2 g Hg), <- Hgg. done.
Qed.

Lemma plan_sizes_partition_witness :
  wf_imap im_ex
  ∧ Np.sum (owners_size (build_owners (Np.argsort_ins) im_ex))
    = num_ghosts im_ex.
Proof.
  split; [apply im_ex_wf|].
  apply (plan_sizes_partition (Np.argsort_ins) im_ex im_ex_wf).
Defined.

(** C5: the receives are fired, then awaited; no send is fired.  In
    the events of every run, whatever the index map and the messages and
    however the run ends, every posted request precedes the wait, the
    wait awaits exactly the requests posted, and no send is posted.  On
    a well-formed index map whose destination ranks are sources of the
    communicator, the run reaches the wait, and the requests posted
    before it are one receive per destination rank, in the order of
    [unique_ghosts], each into the slice of its rank; nothing is posted
    after the wait.  When a destination rank is no source, [Irecv]
    raises and the run ends without a wait. *)
Theorem requests_posted_before_wait c env argsort im :
  fired_then_waited (trace (run_plan c env argsort im).2)
  ∧ (∀ a dest, EvIsend a dest ∉ trace (run_plan c env argsort im).2)
  ∧ (wf_imap im → Np.is_argsort (owners im) (argsort (owners im)) →
     ∃ g, dest_list im = Some g
       ∧ (Forall (is_source c) (ghost_groups g).1.1 →
          ∃ t rs t',
            trace (run_plan c env argsort im).2 = t ++ EvWaitall rs :: t'
            ∧ filter (λ e, is_post e = true) t = EvIrecv <$> rs
            ∧ Forall (λ e, is_wait e = false) t
            ∧ Forall (λ e, is_wait e = false ∧ is_post e = false) t'
            ∧ length rs = length (ghost_groups g).1.1
            ∧ ∀ i u, (ghost_groups g).1.1 !! i = Some u →
                ∃ b e, (ghost_groups g).2 !! i = Some b
                  ∧ (ghost_groups g).2 !! (i + 1) = Some e
                  ∧ rs !! i = Some {| req_begin := b; req_end := e;
                                      req_source := u |})
       ∧ (¬ Forall (is_source c) (ghost_groups g).1.1 →
          (run_plan c env argsort im).1 = Raised MPIError
          ∧ Forall (λ e, is_wait e = false)
              (trace (run_plan c env argsort im).2))).
Proof.
  assert (∀ s o, post_phase c argsort im init = (o, s) →
                 Forall (λ e, is_wait e = false) (trace s)
                 ∧ posted s) as Hpost.
  { intros s o E.
    destruct (quiet_post_phase _ _ _ _ _ _ E) as [(t & Ht & Hquiet) Hposted].
    simpl in Ht. rewrite Ht. split; [done|]. by apply Hposted. }
  destruct (Hpost _ _ (surjective_pairing (post_phase c argsort im init)))
    as [Hquiet Hposted].
  clear Hpost. split; [|split].
  - unfold run_plan, build_plan, bind.
    destruct (post_phase c argsort im init) as [o s1] eqn:E.
    simpl in Hquiet, Hposted.
    destruct o as [x| |e]; simpl.
    + destruct (wait_phase c env im x.1 x.2 s1) as [o' s'] eqn:E'.
      apply wait_phase_trace in E' as (t' & Ht' & Hsilent). simpl.
      rewrite Ht'. by apply fired_then_waited_app.
    + by apply fired_then_waited_quiet.
    + by apply fired_then_waited_quiet.
  - intros a dest Hin. pose proof (run_plan_posted c env argsort im) as Hp.
    unfold posted in Hp.
    assert (EvIsend a dest ∈ filter (λ e, is_post e = true)
              (trace (run_plan c env argsort im).2)) as Hf
      by (by apply list_elem_of_filter).
    rewrite Hp in Hf. by apply list_elem_of_fmap in Hf as (r & ? & _).
  - intros Hwf Hsort. exists (dest_ranks_list im).
    split; [by apply dest_list_spec|].
    rewrite post_phase_run in Hquiet, Hposted by done.
    simpl in Hquiet, Hposted.
    rewrite run_plan_run by done. split.
    + intros Hsrc. rewrite decide_True by done.
      exists (trace (state_posted c argsort im)),
        (all_requests (state_posted c argsort im)).
      unfold wait_result.
      eexists
        (if forallb (matched c env) (all_requests (state_posted c argsort im))
         then if forallb (fits c env (recv_buff_idx_d (state_posted c argsort im)))
                   (all_requests (state_posted c argsort im))
              then [EvCopyToHost; EvToDevice _] else []
         else []).
      split.
      { repeat case_match; simpl; by rewrite <- ?app_assoc. }
      split; [done|]. split; [done|]. split.
      { repeat case_match; repeat constructor. }
      rewrite state_posted_requests.
      change (Np.unique (dest_ranks_list im))
        with (ghost_groups (dest_ranks_list im)).1.1.
      rewrite accepted_all by done. split; [apply recv_requests_length|].
      intros i u Hu.
      assert (i < length (Np.unique_counts (dest_ranks_list im)).2) as Hi.
      { apply lookup_lt_Some in Hu.
        rewrite <- unique_counts_length. exact Hu. }
      change ((ghost_groups (dest_ranks_list im)).2) with
        (Np.insert (Np.cumsum (Np.unique_counts (dest_ranks_list im)).2) 0 0).
      eexists _, _. split; [apply offsets_lookup; lia|].
      split; [apply offsets_lookup; lia|].
      apply recv_requests_lookup. exists u. split; [done|].
      unfold req_at. by replace (i + 1) with (S i) by lia.
    + intros Hsrc. rewrite decide_False by done. split; [done|]. done.
Qed.

Lemma requests_posted_before_wait_witness :
  wf_imap im_ex
  ∧ ∃ t rs t',
      trace (run_plan comm_ex env_ex Np.argsort_ins im_ex).2
      = t ++ EvWaitall rs :: t'
      ∧ filter (λ e, is_post e = true) t = EvIrecv <$> rs
      ∧ length rs = 2.
Proof.
  split; [apply im_ex_wf|].
  destruct (requests_posted_before_wait comm_ex env_ex Np.argsort_ins im_ex)
    as (_ & _ & Hrun).
  destruct (Hrun im_ex_wf (argsort_ins_ok _)) as (g & Hg & Hall & _).
  injection Hg as <-.
  destruct Hall as (t & rs & t' & Ht & Hposted & _ & _ & Hlen & _).
  - repeat constructor; vm_compute; intuition congruence.
  - by exists t, rs, t'.
Defined.

(** The claim of C5 as it is written fails on the code: on the index
    map [im_ex], whose ghosts are owned by the ranks 1 and 2, the run
    executes the wait and has posted no send to rank 1 before it. *)
Lemma sends_not_posted_counterexample :
  ¬ all_fired_before_wait
      (unique_owners (build_owners Np.argsort_ins im_ex)) [1; 2]%Z
      (trace (run_plan comm_ex (λ _, None) Np.argsort_ins im_ex).2).
Proof.
  intros Hclaim.
  destruct (Hclaim 8 [ {| req_begin := 0; req_end := 1; req_source := 1 |};
                       {| req_begin := 1; req_end := 3; req_source := 2 |} ])
    as [Hsend _]; [vm_compute; reflexivity|].
  destruct (Hsend 1%Z) as (j & a & Hj & Hev).
  { vm_compute. apply list_elem_of_here. }
  vm_compute in Hev.
  do 8 (destruct j as [|j]; [discriminate Hev|]). lia.
Qed.

(** C7: a rank with no ghost and no destination rank posts no send and no
    receive; its wait is on an empty list of requests, so the run
    completes whatever the other ranks do.  The only device operations
    are the allocation of three empty arrays and the copy of one of them
    back: no array that exists before the run is written. *)
Theorem empty_exchange_posts_nothing c env argsort im :
  wf_imap im → Np.is_argsort (owners im) (argsort (owners im)) →
  num_ghosts im = 0 → adj_array (index_to_dest_ranks im) = [] →
  run_plan c env argsort im
  = (Done ({| owners_idx := []; owners_size := []; owners_offsets := [0];
              unique_owners := [] |},
           {| ghosts_idx := []; ghosts_size := []; ghosts_offsets := [0];
              unique_ghosts := [] |}),
     {| trace := [EvToDevice []; EvToDevice []; EvWaitall []; EvCopyToHost;
                  EvToDevice []];
        all_requests := []; recv_buff_idx_d := [] |}).
Proof.
  intros Hwf Hsort Hng Hadj.
  assert (owners im = []) as Ho.
  { apply length_zero_iff_nil. rewrite (wf_owners _ Hwf). exact Hng. }
  assert (argsort (owners im) = []) as Hp.
  { destruct Hsort as [Hp _]. rewrite Ho in Hp. simpl in Hp.
    rewrite Ho. by apply Permutation_nil_r in Hp. }
  unfold run_plan, build_plan, post_phase, dest_list, build_owners.
  rewrite Hadj, Ho. rewrite Ho in Hp. rewrite Hp. reflexivity.
Qed.

Lemma empty_exchange_posts_nothing_witness :
  (run_plan comm_two (λ _, None) (Np.argsort_ins) im_a1).1
  = Done ({| owners_idx := []; owners_size := []; owners_offsets := [0];
             unique_owners := [] |},
          {| ghosts_idx := []; ghosts_size := []; ghosts_offsets := [0];
             unique_ghosts := [] |}).
Proof.
  rewrite (empty_exchange_posts_nothing comm_two (λ _, None) (Np.argsort_ins)
             im_a1); [done| |apply argsort_ins_ok|done|done].
  split; simpl; lia.
Defined.

(** ** What the plan depends on *)







(** C3, as the code has it: plan construction never looks at the metadata
    of another rank and has no failure of its own for it.  On a
    well-formed index map its outcome is decided by the communicator and
    the messages alone: it raises the MPI error in the receive loop when
    a destination rank is no source of the communicator; otherwise it
    hangs in the wait when a receive is not matched, raises the MPI
    error when a message is longer than its slice, and completes
    otherwise. *)
Theorem plan_build_checks_no_symmetry c env argsort im :
  wf_imap im → Np.is_argsort (owners im) (argsort (owners im)) →
  ∃ g, dest_list im = Some g ∧
    let rs := recv_requests (ghost_groups g).1.1 (ghost_groups g).1.2 in
    let buf := zeros (Np.sum (ghost_groups g).1.2) in
    (run_plan c env argsort im).1
    = if decide (Forall (is_source c) (ghost_groups g).1.1) then
        if forallb (matched c env) rs then
          if forallb (fits c env buf) rs then
            Done (build_owners argsort im,
                  {| ghosts_idx := to_local (foldl (deliver c env) buf rs) im;
                     ghosts_size := (ghost_groups g).1.2;
                     ghosts_offsets := (ghost_groups g).2;
                     unique_ghosts := (ghost_groups g).1.1 |})
          else Raised MPIError
        else Blocked
      else Raised MPIError.
Proof.
  intros Hwf Hsort. exists (dest_ranks_list im).
  split; [by apply dest_list_spec|].
  rewrite run_plan_run by done. cbv zeta.
  destruct (decide (Forall (is_source c) (ghost_groups (dest_ranks_list im)).1.1))
    as [Hsrc|Hsrc]; [|done].
  unfold wait_result. rewrite state_posted_requests, state_posted_buffer.
  change (Np.unique (dest_ranks_list im))
    with (ghost_groups (dest_ranks_list im)).1.1.
  rewrite accepted_all by done.
  change (Np.unique_counts (dest_ranks_list im)).2
    with (ghost_groups (dest_ranks_list im)).1.2.
  by repeat case_match.
Qed.

Lemma plan_build_checks_no_symmetry_witness :
  wf_imap im_a0
  ∧ ∃ g, dest_list im_a0 = Some g
      ∧ (run_plan comm_two (λ _, None) (Np.argsort_ins) im_a0).1
        = Done (build_owners (Np.argsort_ins) im_a0,
                {| ghosts_idx := []; ghosts_size := []; ghosts_offsets := [0];
                   unique_ghosts := [] |}).
Proof.
  assert (wf_imap im_a0) as Hwf by (split; simpl; lia).
  split; [done|].
  destruct (plan_build_checks_no_symmetry comm_two (λ _, None) (Np.argsort_ins)
              im_a0 Hwf (argsort_ins_ok _)) as (g & Hg & Hrun).
  exists g. split; [done|]. rewrite Hrun.
  injection Hg as <-. reflexivity.
Defined.

(** The ghost of rank 0 is not acknowledged by its owner, and the plan of
    rank 0 is built all the same, whatever is received. *)
Lemma asymmetric_plan_built_counterexample :
  ¬ (∀ w r im c env argsort,
       w !! r = Some im → symmetric_at w r im = false →
       ∀ plan s, run_plan c env argsort im ≠ (Done plan, s)).
Proof.
  intros Hclaim.
  assert (symmetric_at w_asym 0 im_a0 = false) as Hasym by reflexivity.
  eapply (Hclaim w_asym 0 im_a0 comm_two (λ _, None) (Np.argsort_ins) eq_refl
            Hasym).
  vm_compute. reflexivity.
Qed.

(** ** From global to local indices *)

Lemma wrap64_id z : int64 z → wrap64 z = z.
Proof.
  unfold int64, wrap64. intros Hz. rewrite Z.mod_small; lia.
Qed.

Lemma wrap64_below z :
  (- 2 ^ 64 ≤ z + 2 ^ 63 < 0)%Z → wrap64 z = (z + 2 ^ 64)%Z.
Proof.
  unfold wrap64. intros Hz.
  rewrite <- (Z.mod_unique (z + 2 ^ 63) (2 ^ 64) (-1) (z + 2 ^ 63 + 2 ^ 64));
    lia.
Qed.

Lemma to_local_lookup recv im k :
  to_local recv im !! k
  = (λ g, wrap64 (g - (local_range im).1)) <$> recv !! k.
Proof. unfold to_local. by rewrite list_lookup_fmap. Qed.

Lemma to_local_in_range im g :
  wf_imap im → int64 g →
  (0 ≤ wrap64 (g - (local_range im).1) < Z.of_nat (size_local im))%Z
  ↔ ((local_range im).1 ≤ g < (local_range im).2)%Z.
Proof.
  intros Hwf Hg. pose proof (wf_range _ Hwf). pose proof (wf_range_lo _ Hwf).
  pose proof (wf_range_hi _ Hwf). unfold int64 in Hg.
  destruct (decide (- 2 ^ 63 ≤ g - (local_range im).1)%Z) as [Hge|Hlt].
  - rewrite wrap64_id by (unfold int64; lia). lia.
  - rewrite wrap64_below by lia. lia.
Qed.

(** C10: the received global indices become local slots by a plain 64-bit
    subtraction of the start of the local range, entry by entry and
    without a look at the bounds: the plan of a completed run holds
    exactly [recv_buff_idx - local_range[0]].  The entries are all in
    [0, nlocal) exactly when every received index is in the local
    range. *)
Theorem ghosts_idx_is_unchecked_subtraction im :
  (∀ c env argsort od gd s,
     run_plan c env argsort im = (Done (od, gd), s) →
     ghosts_idx gd = to_local (recv_buff_idx_d s) im)
  ∧ (∀ recv k g,
       recv !! k = Some g → int64 (g - (local_range im).1) →
       to_local recv im !! k = Some (g - (local_range im).1)%Z)
  ∧ (∀ recv,
       wf_imap im → Forall int64 recv →
       Forall (λ l, (0 ≤ l < Z.of_nat (size_local im))%Z) (to_local recv im)
       ↔ Forall (λ g, ((local_range im).1 ≤ g < (local_range im).2)%Z) recv).
Proof.
  split; [|split].
  - intros c env argsort od gd s Hrun.
    by apply run_plan_result in Hrun as (_ & _ & ?).
  - intros recv k g Hk Hg. rewrite to_local_lookup, Hk. simpl.
    by rewrite wrap64_id.
  - intros recv Hwf Hall. unfold to_local. rewrite Forall_fmap.
    rewrite !Forall_forall. rewrite Forall_forall in Hall.
    split; intros H g Hg; apply (to_local_in_range im g Hwf (Hall g Hg));
      by apply H.
Qed.

Lemma ghosts_idx_is_unchecked_subtraction_witness :
  to_local [4; 3]%Z im_a1 !! 0 = Some 1%Z
  ∧ (Forall (λ l, (0 ≤ l < 2)%Z) (to_local [4; 3]%Z im_a1)
     ↔ Forall (λ g, (3 ≤ g < 5)%Z) [4; 3]%Z).
Proof.
  destruct (ghosts_idx_is_unchecked_subtraction im_a1) as (_ & H2 & H3).
  split.
  - apply (H2 [4; 3]%Z 0 4%Z); [reflexivity|]. unfold int64. simpl. lia.
  - apply (H3 [4; 3]%Z).
    + split; simpl; lia.
    + repeat constructor; unfold int64; lia.
Defined.

(** An index outside the local range is taken as it comes: the run
    completes and the plan holds the slot 100 for a rank that owns three
    indices. *)
Example unchecked_index_accepted :
  ∃ od gd s,
    run_plan comm_ex env_out (Np.argsort_ins) im_ex = (Done (od, gd), s)
    ∧ ghosts_idx gd = [100; 0; 2]%Z ∧ size_local im_ex = 3.
Proof.
  eexists _, _, _. split; [vm_compute; reflexivity|]. by split.
Qed.

(** ** The kernel *)

Section KernelFacts.

Context {T : Type}.
Implicit Types (t : thread).

Lemma global_index_launch gridDim t :
  in_launch gridDim t →
  global_index t = (threadIdx t + blockIdx t * blockDim t)%Z
  ∧ (0 ≤ global_index t < 2 ^ 41)%Z.
Proof.
  intros (Ht & Hb & Hk & Hg). unfold global_index.
  assert (0 ≤ blockIdx t * blockDim t)%Z by (apply Z.mul_nonneg_nonneg; lia).
  assert (blockIdx t * blockDim t ≤ (2 ^ 31 - 2) * 1024)%Z
    by (apply Z.mul_le_mono_nonneg; lia).
  rewrite (wrap64_id (blockIdx t * blockDim t)) by (unfold int64; lia).
  rewrite wrap64_id by (unfold int64; lia). lia.
Qed.

Lemma aget_nonneg (a : list T) i :
  (0 ≤ i)%Z → aget a i = a !! Z.to_nat i.
Proof.
  intros Hi. unfold aget, norm_index.
  destruct (i <? 0)%Z eqn:E; [lia|].
  destruct (0 <=? i)%Z eqn:E'; [done|lia].
Qed.

Lemma aset_Some (a a' : list T) i v :
  (0 ≤ i)%Z → aset a i v = Some a' →
  (i < Z.of_nat (length a))%Z ∧ a' = <[Z.to_nat i:=v]> a.
Proof.
  intros Hi. unfold aset, norm_index.
  destruct (i <? 0)%Z eqn:E; [lia|].
  destruct (0 <=? i)%Z eqn:E1; [|lia].
  destruct (i <? Z.of_nat (length a))%Z eqn:E2; simpl; [|done].
  intros [= <-]. split; [lia|done].
Qed.

Lemma aset_nonneg (a : list T) i v :
  (0 ≤ i < Z.of_nat (length a))%Z → aset a i v = Some (<[Z.to_nat i:=v]> a).
Proof.
  intros Hi. unfold aset, norm_index.
  destruct (i <? 0)%Z eqn:E; [lia|].
  destruct (0 <=? i)%Z eqn:E1; [|lia].
  destruct (i <? Z.of_nat (length a))%Z eqn:E2; [done|lia].
Qed.

End KernelFacts.

(** C4: the kernel is guarded.  In a launch of any grid and block size, a
    work-item whose global index is [end - begin] or more leaves [out_]
    as it is; a work-item below it writes the one cell [out_[idx]], with
    the value [in_[idx + begin]], and leaves every other cell as it
    is. *)
Theorem copy_range_guarded {T} (in_ out_ : list T) begin end_ gridDim t :
  in_launch gridDim t → int64 begin → int64 end_ → int64 (end_ - begin) →
  let idx := (threadIdx t + blockIdx t * blockDim t)%Z in
  global_index t = idx
  ∧ ((end_ - begin ≤ idx)%Z → copy_range in_ out_ begin end_ t = Some out_)
  ∧ ((idx < end_ - begin)%Z →
     (∀ out', copy_range in_ out_ begin end_ t = Some out' →
        aget out' idx = aget in_ (idx + begin)
        ∧ length out' = length out_
        ∧ ∀ j, j ≠ Z.to_nat idx → out' !! j = out_ !! j)
     ∧ ((0 ≤ idx + begin < Z.of_nat (length in_))%Z →
        (idx < Z.of_nat (length out_))%Z →
        ∃ v, in_ !! Z.to_nat (idx + begin) = Some v
             ∧ copy_range in_ out_ begin end_ t
               = Some (<[Z.to_nat idx:=v]> out_))).
Proof.
  intros Hl Hb He Hd idx.
  destruct (global_index_launch gridDim t Hl) as [Hidx Hrange].
  fold idx in Hidx. rewrite Hidx in Hrange. unfold int64 in *.
  split; [done|]. unfold copy_range. rewrite Hidx.
  rewrite (wrap64_id (end_ - begin)) by done. split.
  - intros Hge. destruct (idx <? end_ - begin)%Z eqn:E; [lia|done].
  - intros Hlt. destruct (idx <? end_ - begin)%Z eqn:E; [|lia].
    rewrite (wrap64_id (idx + begin)) by (unfold int64; lia). split.
    + intros out' Hout.
      destruct (aget in_ (idx + begin)) as [v|] eqn:Hv; [|done].
      apply aset_Some in Hout as [Hlen ->]; [|lia].
      split; [|split].
      * rewrite aget_nonneg by lia. apply list_lookup_insert_eq. lia.
      * apply length_insert.
      * intros j Hj. by apply list_lookup_insert_ne.
    + intros Hin Hout. rewrite aget_nonneg by lia.
      destruct (in_ !! Z.to_nat (idx + begin)) as [v|] eqn:Hv.
      * exists v. split; [done|]. apply aset_nonneg. lia.
      * apply lookup_ge_None_1 in Hv. lia.
Qed.

Lemma copy_range_guarded_witness :
  copy_range [10; 20; 30; 40; 50]%Z [0; 0; 0; 0]%Z 1 3 thread_ex
  = Some [0; 0; 0; 0]%Z
  ∧ ∃ v, [10; 20; 30; 40; 50]%Z !! Z.to_nat (1 + 0 * 2 + 1) = Some v
       ∧ copy_range [10; 20; 30; 40; 50]%Z [0; 0; 0; 0]%Z 1 3 thread_in
         = Some (<[Z.to_nat (1 + 0 * 2):=v]> [0; 0; 0; 0]%Z).
Proof.
  split.
  - apply (copy_range_guarded [10; 20; 30; 40; 50]%Z [0; 0; 0; 0]%Z 1 3 2
             thread_ex); unfold in_launch, int64; simpl; lia.
  - apply (copy_range_guarded [10; 20; 30; 40; 50]%Z [0; 0; 0; 0]%Z 1 3 2
             thread_in); unfold in_launch, int64; simpl; lia.
Defined.

(** ** The two scatters *)

Section ScatterFacts.

Import Scatter.

Context {V : Type}.
Implicit Types (w : list (@rank_state V)) (rs : @rank_state V).


Lemma bind_imap {A B} (f : nat → A → A) (h : A → list B) (l : list A) :
  (∀ i x, h (f i x) = h x) → imap f l ≫= h = l ≫= h.
Proof.
  revert f. induction l as [|x l IH]; intros f Hf; [done|].
  rewrite imap_cons, !bind_cons, Hf. f_equal. apply IH.
  intros i y. apply Hf.
Qed.






Variable combine : V → V → V.

(** A reverse scatter keeps the ghost values. *)
Lemma reverse_ghost_values w o rs :
  drop (size_local (rs_map rs)) (rs_vals (reverse_rank combine w o rs))
  = drop (size_local (rs_map rs)) (rs_vals rs).
Proof.
  simpl. apply list_eq. intros i. rewrite !lookup_drop, list_lookup_imap.
  destruct (rs_vals rs !! _) as [v|]; [|done]. simpl.
  unfold reverse_slot. rewrite bool_decide_eq_false_2 by lia. done.
Qed.

Lemma contributions_reverse w o g :
  contributions (scatter_reverse combine w) o g = contributions w o g.
Proof.
  unfold contributions, scatter_reverse. apply bind_imap.
  intros i rs. cbv beta.
  change (rs_map (reverse_rank combine w i rs)) with (rs_map rs).
  by rewrite reverse_ghost_values.
Qed.

Lemma reverse_slot_reverse w o im i old :
  reverse_slot combine (scatter_reverse combine w) o im i old
  = reverse_slot combine w o im i old.
Proof. unfold reverse_slot. by rewrite contributions_reverse. Qed.


End ScatterFacts.


(** The scenario of the spec: after a forward scatter the ghost slot of
    rank 0 for index 3 holds 40 and that of rank 1 for index 0 holds
    10. *)
Example scatter_forward_scenario :
  Scatter.rs_vals <$> Scatter.scatter_forward w_ex
  = [[10; 20; 30; 40]; [40; 50; 10]]%Z.
Proof. reflexivity. Qed.

(** ** More on the groupings of the plan *)

Section Groups.

Implicit Types (a : list Z) (r : list (Z * nat)).

Lemma runs_pos a : Forall (λ uc, 0 < uc.2) (Np.runs a).
Proof.
  induction a as [|x a IH]; simpl; [constructor|].
  destruct (Np.runs a) as [|[y c] r] eqn:E; [repeat constructor|].
  apply Forall_cons in IH as [Hc Hr]. simpl in Hc.
  destruct (decide (x = y)); repeat constructor; simpl; try done; lia.
Qed.

Lemma filter_eq_replicate (u x : Z) n :
  length (filter (λ y, y = u) (replicate n x)) = if decide (x = u) then n else 0.
Proof.
  induction n as [|n IH]; simpl; [by case_decide|].
  rewrite filter_cons. destruct (decide (x = u)); simpl; by rewrite IH.
Qed.

Lemma filter_eq_flat_none u r :
  u ∉ r.*1 → filter (λ y, y = u) (flat_map (λ uc, replicate uc.2 uc.1) r) = [].
Proof.
  induction r as [|[x c] r IH]; simpl; [done|]. intros Hu.
  apply not_elem_of_cons in Hu as [Hne Hu]. rewrite filter_app, IH by done.
  rewrite app_nil_r. apply length_zero_iff_nil.
  rewrite filter_eq_replicate. by rewrite decide_False.
Qed.

Lemma runs_count_flat r i u c :
  NoDup r.*1 → r !! i = Some (u, c) →
  length (filter (λ y, y = u) (flat_map (λ uc, replicate uc.2 uc.1) r)) = c.
Proof.
  revert i. induction r as [|[x n] r IH]; intros i Hnd Hi; [done|].
  simpl in *. apply NoDup_cons in Hnd as [Hx Hnd].
  rewrite filter_app, length_app, filter_eq_replicate.
  destruct i as [|i]; simpl in Hi.
  - injection Hi as -> ->. rewrite decide_True by done.
    rewrite filter_eq_flat_none by done. simpl. lia.
  - rewrite (IH i) by done. rewrite decide_False; [done|].
    intros ->. apply Hx. apply list_elem_of_lookup_2 in Hi.
    by apply (list_elem_of_fmap_2 fst) in Hi.
Qed.

(** [np.unique] counts how often each value occurs. *)
Lemma unique_counts_count a i u :
  (Np.unique_counts a).1 !! i = Some u →
  ∃ c, (Np.unique_counts a).2 !! i = Some c ∧ 0 < c
       ∧ c = length (filter (λ y, y = u) a).
Proof.
  unfold Np.unique_counts. simpl. rewrite !list_lookup_fmap.
  destruct (Np.runs (Np.sort a) !! i) as [[u' c]|] eqn:Hi; [|done].
  simpl. intros [= ->]. exists c. split; [done|]. split.
  - pose proof (runs_pos (Np.sort a)) as Hpos. rewrite Forall_lookup in Hpos.
    by apply Hpos in Hi.
  - rewrite <- (sort_perm a), <- (runs_expand (Np.sort a)).
    symmetry. eapply runs_count_flat; [|done].
    apply (unique_NoDup a).
Qed.

Lemma unique_sorted a : Sorted Z.lt (Np.unique a).
Proof. apply runs_sorted, sort_sorted. Qed.

(** The offsets of counts. *)
Lemma cumsum_sorted acc cs :
  Forall (λ c, 0 < c) cs → Sorted lt (acc :: Np.cumsum_from acc cs).
Proof.
  intros Hcs. revert acc. induction Hcs as [|c cs Hc _ IH]; intros acc; simpl.
  - repeat constructor.
  - constructor; [apply IH|]. constructor. lia.
Qed.

Lemma cumsum_last acc cs :
  last (acc :: Np.cumsum_from acc cs) = Some (acc + sum_list cs).
Proof.
  revert acc. induction cs as [|c cs IH]; intros acc.
  - simpl. f_equal. lia.
  - change (Np.cumsum_from acc (c :: cs))
      with ((acc + c) :: Np.cumsum_from (acc + c) cs).
    rewrite last_cons_cons, IH. simpl. f_equal. lia.
Qed.

Lemma offsets_shape a :
  let offs := Np.insert (Np.cumsum (Np.unique_counts a).2) 0 0 in
  length offs = S (length (Np.unique a))
  ∧ offs !! 0 = Some 0
  ∧ last offs = Some (length a)
  ∧ Sorted lt offs.
Proof.
  cbv zeta. split; [|split; [|split]].
  - rewrite offsets_length. unfold Np.unique.
    by rewrite unique_counts_length.
  - by apply offsets_lookup; lia.
  - unfold Np.insert, Np.cumsum. rewrite take_0, drop_0. simpl app.
    rewrite cumsum_last. f_equal. apply unique_counts_sum.
  - unfold Np.insert, Np.cumsum. rewrite take_0, drop_0. simpl app.
    apply cumsum_sorted. unfold Np.unique_counts. simpl.
    apply Forall_fmap. apply (runs_pos (Np.sort a)).
Qed.

(** Runs of a list that is given group by group. *)
Lemma runs_replicate_app (x : Z) n a :
  0 < n → (∀ y, head a = Some y → y ≠ x) →
  Np.runs (replicate n x ++ a) = (x, n) :: Np.runs a.
Proof.
  intros Hn Hhd. destruct n as [|n]; [lia|]. clear Hn.
  induction n as [|n IH].
  - simpl. destruct a as [|y a']; [done|].
    destruct (runs_head (y :: a') y a' eq_refl) as (c & r & E). rewrite E.
    rewrite decide_False; [done|]. intros ->. by apply (Hhd y).
  - change (replicate (S (S n)) x ++ a) with (x :: (replicate (S n) x ++ a)).
    change (Np.runs (x :: ?l)) with
      (match Np.runs l with
       | (y, c) :: r => if decide (x = y) then (y, S c) :: r
                        else (x, 1) :: (y, c) :: r
       | [] => [(x, 1)]
       end).
    rewrite IH. by rewrite decide_True.
Qed.

Lemma runs_groups (c : Z → nat) (ranks : list Z) :
  NoDup ranks →
  Np.runs (flat_map (λ x, replicate (c x) x) ranks)
  = (λ x, (x, c x)) <$> filter (λ x, 0 < c x) ranks.
Proof.
  induction ranks as [|x ranks IH]; intros Hnd; [done|].
  apply NoDup_cons in Hnd as [Hx Hnd]. simpl. rewrite filter_cons.
  destruct (decide (0 < c x)) as [Hpos|Hzero].
  - rewrite runs_replicate_app; [by rewrite IH| done |].
    intros y Hy ->. apply Hx.
    assert (x ∈ flat_map (λ x, replicate (c x) x) ranks) as Hin.
    { destruct (flat_map _ ranks); [done|]. injection Hy as ->.
      apply list_elem_of_here. }
    apply list_elem_of_In, in_flat_map in Hin as (z & Hz & Hin).
    apply list_elem_of_In, elem_of_replicate in Hin as [-> _].
    by apply list_elem_of_In.
  - replace (c x) with 0 by lia. simpl. by apply IH.
Qed.

Lemma groups_sorted (c : Z → nat) (ranks : list Z) :
  Sorted Z.lt ranks → Sorted Z.le (flat_map (λ x, replicate (c x) x) ranks).
Proof.
  intros HS. apply (Sorted_StronglySorted _) in HS.
  apply StronglySorted_Sorted.
  induction HS as [|x ranks HS IH Hall]; simpl; [constructor|].
  apply StronglySorted_app. split; [|split; [|done]].
  - intros x1 x2 [-> _]%elem_of_replicate Hx2.
    apply list_elem_of_In, in_flat_map in Hx2 as (z & Hz & Hin).
    apply list_elem_of_In, elem_of_replicate in Hin as [-> _].
    rewrite Forall_forall in Hall. apply list_elem_of_In in Hz.
    apply Hall in Hz. lia.
  - clear. induction (c x) as [|n IH]; simpl; constructor; [done|].
    apply Forall_forall. by intros y [-> _]%elem_of_replicate.
Qed.

End Groups.

(** X1: the owner ranks come in strictly increasing order, every owner of
    a ghost is among them, and the size of each group is the number of
    ghost slots that the owner owns, which is at least one. *)
Theorem owners_size_counts_slots argsort im :
  Sorted Z.lt (unique_owners (build_owners argsort im))
  ∧ (∀ o, o ∈ unique_owners (build_owners argsort im) ↔ o ∈ owners im)
  ∧ (∀ i u, unique_owners (build_owners argsort im) !! i = Some u →
       ∃ c, owners_size (build_owners argsort im) !! i = Some c ∧ 0 < c
            ∧ c = length (filter (λ o, o = u) (owners im))).
Proof.
  split; [apply (unique_sorted (owners im))|].
  split; [intros o; apply (unique_elem (owners im))|].
  intros i u Hu. by apply (unique_counts_count (owners im)).
Qed.

(** X2: the offsets of the owner groups and of the destination groups
    have one entry more than there are groups, start at 0, end at the
    length of the grouped array and increase strictly: the slices of the
    groups are non-empty and follow each other without gap. *)
Theorem group_offsets_shape argsort im g :
  (length (owners_offsets (build_owners argsort im))
   = S (length (unique_owners (build_owners argsort im)))
   ∧ owners_offsets (build_owners argsort im) !! 0 = Some 0
   ∧ last (owners_offsets (build_owners argsort im))
     = Some (length (owners im))
   ∧ Sorted lt (owners_offsets (build_owners argsort im)))
  ∧ (length (ghost_groups g).2 = S (length (ghost_groups g).1.1)
     ∧ (ghost_groups g).2 !! 0 = Some 0
     ∧ last (ghost_groups g).2 = Some (length g)
     ∧ Sorted lt (ghost_groups g).2).
Proof.
  split; [apply (offsets_shape (owners im))|apply (offsets_shape g)].
Qed.

(** X3: the destination ranks are grouped in increasing order.  The ranks
    of the groups are the ranks of the adjacency list that ghost at least
    one owned index (a rank found only at the nodes of ghosts is left
    out), and the size of a group is the number of owned indices that its
    rank ghosts. *)
Theorem ghosts_grouped_by_destination im :
  wf_imap im →
  ∃ g, dest_list im = Some g ∧ Sorted Z.le g
    ∧ (ghost_groups g).1.1
      = filter (λ r, 0 < shared_count (index_to_dest_ranks im) (size_local im) r)
          (Np.unique (adj_array (index_to_dest_ranks im)))
    ∧ (ghost_groups g).1.2
      = shared_count (index_to_dest_ranks im) (size_local im)
          <$> (ghost_groups g).1.1
    ∧ (∀ r, r ∈ (ghost_groups g).1.1
          ↔ ∃ dof, dof < size_local im ∧ r ∈ index_to_dest_ranks im !!! dof).
Proof.
  intros Hwf. exists (dest_ranks_list im).
  split; [by apply dest_list_spec|].
  set (adj := index_to_dest_ranks im). set (n := size_local im).
  set (ranks := Np.unique (adj_array adj)).
  assert (Sorted Z.le (dest_ranks_list im)) as Hsorted.
  { apply groups_sorted, unique_sorted. }
  assert (Np.sort (dest_ranks_list im) = dest_ranks_list im) as Hsort.
  { apply (Sorted_unique Z.le); [apply sort_sorted|done|apply sort_perm]. }
  assert (Np.runs (Np.sort (dest_ranks_list im))
          = (λ r, (r, shared_count adj n r))
              <$> filter (λ r, 0 < shared_count adj n r) ranks) as Hruns.
  { rewrite Hsort. apply runs_groups, unique_NoDup. }
  assert ((ghost_groups (dest_ranks_list im)).1.1
          = filter (λ r, 0 < shared_count adj n r) ranks) as HU.
  { change ((Np.runs (Np.sort (dest_ranks_list im))).*1
            = filter (λ r, 0 < shared_count adj n r) ranks).
    rewrite Hruns, <- list_fmap_compose. apply list_fmap_id. }
  split; [done|]. split; [done|]. split.
  - rewrite HU.
    change ((Np.runs (Np.sort (dest_ranks_list im))).*2
            = shared_count adj n
                <$> filter (λ r, 0 < shared_count adj n r) ranks).
    by rewrite Hruns, <- list_fmap_compose.
  - intros r. rewrite HU, list_elem_of_filter. unfold shared_count. split.
    + intros [Hpos _].
      destruct (filter _ (seq 0 n)) as [|dof l] eqn:E; [simpl in Hpos; lia|].
      assert (dof ∈ filter (λ dof, r ∈ adj !!! dof) (seq 0 n)) as Hin
          by (rewrite E; apply list_elem_of_here).
      apply list_elem_of_filter in Hin as [Hr Hdof%elem_of_seq].
      exists dof. split; [lia|done].
    + intros (dof & Hdof & Hr).
      assert (dof ∈ filter (λ dof, r ∈ adj !!! dof) (seq 0 n)) as Hin.
      { apply list_elem_of_filter. split; [done|]. apply elem_of_seq. lia. }
      split.
      * destruct (filter _ (seq 0 n)); [by apply elem_of_nil in Hin|simpl; lia].
      * apply unique_elem. unfold adj_array.
        apply list_elem_of_In, in_concat. exists (adj !!! dof).
        split; apply list_elem_of_In; [|done].
        apply list_elem_of_lookup_total_2. pose proof (wf_nodes _ Hwf).
        unfold adj, n in *. lia.
Qed.

Lemma ghosts_grouped_by_destination_witness :
  wf_imap im_ex
  ∧ ∃ g, dest_list im_ex = Some g ∧ Sorted Z.le g.
Proof.
  split; [apply im_ex_wf|].
  destruct (ghosts_grouped_by_destination im_ex im_ex_wf)
    as (g & Hg & Hs & _).
  by exists g.
Defined.

(** ** More on the exchange *)

Section ExchangeFacts.

Variable c : communicator.
Variable env : Z → option (list Z).

Lemma forallb_false {A} (f : A → bool) (l : list A) :
  forallb f l = false ↔ ∃ x, x ∈ l ∧ f x = false.
Proof.
  induction l as [|x l IH]; simpl.
  - split; [done|]. by intros (x & Hx%elem_of_nil & _).
  - rewrite andb_false_iff, IH. split.
    + intros [Hx|(y & Hy & Hfy)].
      * exists x. split; [apply list_elem_of_here|done].
      * exists y. split; [by apply list_elem_of_further|done].
    + intros (y & Hy & Hfy). apply elem_of_cons in Hy as [->|Hy]; [by left|].
      right. by exists y.
Qed.

Lemma sum_take_le cs i : sum_list (take i cs) ≤ sum_list cs.
Proof.
  rewrite <- (take_drop i cs) at 2. rewrite sum_list_with_app. lia.
Qed.

Lemma sum_take_S cs i n :
  cs !! i = Some n → sum_list (take (S i) cs) = sum_list (take i cs) + n.
Proof.
  intros Hc. rewrite (take_S_r _ _ _ Hc), sum_list_with_app. simpl. lia.
Qed.

Lemma sum_take_mono cs i j :
  i ≤ j → sum_list (take i cs) ≤ sum_list (take j cs).
Proof.
  intros Hij. replace (take i cs) with (take i (take j cs)).
  - apply sum_take_le.
  - rewrite take_take. f_equal. lia.
Qed.

(** A receive writes its message at the start of its view. *)
Lemma deliver_write buf r :
  deliver c env buf r = apply_write buf (write_of (incoming c env) r).
Proof.
  unfold deliver, apply_write, write_of. simpl.
  by destruct (incoming c env (req_source r)).
Qed.

Lemma foldl_deliver_writes buf rs :
  foldl (deliver c env) buf rs
  = foldl apply_write buf (write_of (incoming c env) <$> rs).
Proof.
  revert buf. induction rs as [|r rs IH]; intros buf; simpl; [done|].
  by rewrite deliver_write, IH.
Qed.

Lemma writes_chain ms pre rest :
  sum_list_with length ms ≤ length rest →
  foldl apply_write (pre ++ rest) (writes_from (length pre) ms)
  = pre ++ concat ms ++ drop (sum_list_with length ms) rest.
Proof.
  revert pre rest. induction ms as [|m ms IH]; intros pre rest Hlen; simpl in *.
  - by rewrite drop_0.
  - unfold apply_write at 2. simpl.
    rewrite <- (take_drop (length m) rest) at 1.
    replace (length pre) with (length pre + 0) at 1 by lia.
    rewrite list_inserts_app_r, list_inserts_0_r
      by (rewrite length_take; lia).
    replace (length pre + length m) with (length (pre ++ m))
      by (by rewrite length_app).
    rewrite (app_assoc pre m), IH by (rewrite length_drop; lia).
    rewrite drop_drop, <- !app_assoc. done.
Qed.

Lemma writes_of_requests cs us i :
  (∀ k u, us !! k = Some u →
     ∃ m, env u = Some m ∧ cs !! (i + k) = Some (length m)) →
  write_of env <$> imap (λ k, req_at cs (i + k)) us
  = writes_from (sum_list (take i cs)) ((λ u, default [] (env u)) <$> us).
Proof.
  revert i. induction us as [|u us IH]; intros i Hus; [done|].
  rewrite imap_cons, !fmap_cons. cbn [writes_from].
  destruct (Hus 0 u eq_refl) as (m & Hm & Hc).
  replace (i + 0) with i in * by lia. f_equal.
  rewrite Hm. simpl default. rewrite <- (sum_take_S _ _ _ Hc).
  rewrite <- (IH (S i)).
  - f_equal. apply imap_ext. intros k x _. simpl. f_equal. lia.
  - intros k u' Hk. destruct (Hus (S k) u' Hk) as (m' & Hm' & Hc').
    exists m'. split; [done|]. by replace (S i + k) with (i + S k) by lia.
Qed.

Lemma inserts_lookup (l : list Z) b m j :
  list_inserts b m l !! j
  = if decide (b ≤ j < b + length m ∧ j < length l) then m !! (j - b)
    else l !! j.
Proof.
  case_decide as Hd; [apply list_lookup_inserts; lia|].
  destruct (decide (j < b)); [by apply list_lookup_inserts_lt|].
  destruct (decide (b + length m ≤ j)); [by apply list_lookup_inserts_ge|].
  rewrite !lookup_ge_None_2; [done|lia|rewrite length_inserts; lia].
Qed.

(** Writes into views that do not overlap commute. *)
Lemma apply_write_comm buf (w1 w2 : nat * list Z) :
  w1.1 + length w1.2 ≤ w2.1 ∨ w2.1 + length w2.2 ≤ w1.1 →
  apply_write (apply_write buf w1) w2 = apply_write (apply_write buf w2) w1.
Proof.
  destruct w1 as [b1 m1], w2 as [b2 m2]. unfold apply_write. simpl.
  intros Hdisj. apply list_eq. intros j.
  rewrite !inserts_lookup, !length_inserts.
  repeat case_decide; try done; lia.
Qed.

Lemma foldl_writes_perm (ws ws' : list (nat * list Z)) buf :
  (∀ w1 w2, w1 ∈ ws → w2 ∈ ws →
     w1 = w2 ∨ w1.1 + length w1.2 ≤ w2.1 ∨ w2.1 + length w2.2 ≤ w1.1) →
  ws ≡ₚ ws' → foldl apply_write buf ws = foldl apply_write buf ws'.
Proof.
  intros Hdisj Hperm. revert buf.
  induction Hperm as [|w ws ws' Hperm IH|w1 w2 ws|ws ws' ws'' H1 IH1 H2 IH2];
    intros buf; simpl.
  - done.
  - apply IH. intros w1 w2 H1 H2.
    apply Hdisj; by apply list_elem_of_further.
  - f_equal.
    destruct (Hdisj w2 w1) as [->|Hd].
    + apply list_elem_of_here.
    + apply list_elem_of_further, list_elem_of_here.
    + done.
    + by apply apply_write_comm.
  - rewrite IH1 by done. apply IH2. intros w1 w2 Hw1 Hw2.
    apply Hdisj; by rewrite H1.
Qed.

End ExchangeFacts.
(** X4: the script never posts a send.  In the events of every run, every
    posted request is a receive, and it is one of [all_requests]. *)
Theorem script_never_sends c env argsort im e :
  e ∈ trace (run_plan c env argsort im).2 → is_post e = true →
  ∃ r, e = EvIrecv r ∧ r ∈ all_requests (run_plan c env argsort im).2.
Proof.
  intros He Hpost. pose proof (run_plan_posted c env argsort im) as Hp.
  unfold posted in Hp.
  assert (e ∈ filter (λ e, is_post e = true)
                (trace (run_plan c env argsort im).2)) as Hin
    by (by apply list_elem_of_filter).
  rewrite Hp in Hin. apply list_elem_of_fmap in Hin as (r & -> & Hr).
  by exists r.
Qed.

Lemma script_never_sends_witness :
  ∃ r, EvIrecv {| req_begin := 0; req_end := 1; req_source := 1 |} = EvIrecv r
       ∧ r ∈ all_requests (run_plan comm_ex env_ex (Np.argsort_ins) im_ex).2.
Proof.
  apply (script_never_sends comm_ex env_ex (Np.argsort_ins) im_ex); [|done].
  vm_compute. do 6 apply list_elem_of_further. apply list_elem_of_here.
Defined.

Section RunFacts.

Variable c : communicator.
Variable env : Z → option (list Z).
Variable argsort : list Z → list nat.
Variable im : IndexMap.
Hypothesis Hwf : wf_imap im.
Hypothesis Hsort : Np.is_argsort (owners im) (argsort (owners im)).

Let g := dest_ranks_list im.
Let us := (ghost_groups g).1.1.
Let cs := (ghost_groups g).1.2.

Lemma groups_lengths : length us = length cs.
Proof. apply unique_counts_length. Qed.

Lemma groups_sum : sum_list cs = length g.
Proof. apply unique_counts_sum. Qed.

Lemma run_plan_requests :
  Forall (is_source c) us →
  all_requests (run_plan c env argsort im).2 = recv_requests us cs.
Proof.
  intros Hsrc. rewrite run_plan_all_requests by done.
  fold g us cs. by rewrite accepted_all.
Qed.

Lemma matched_requests :
  forallb (matched c env) (recv_requests us cs) = false
  ↔ ∃ u, u ∈ us ∧ incoming c env u = None.
Proof.
  rewrite forallb_false. split.
  - intros (r & Hr & Hm). exists (req_source r).
    split; [by eapply recv_requests_source|].
    unfold matched in Hm. apply bool_decide_eq_false in Hm.
    destruct (incoming c env (req_source r)); [|done]. by destruct Hm.
  - intros (u & Hu & Hnone). apply list_elem_of_lookup in Hu as [i Hi].
    exists (req_at cs i u). split.
    + by apply (elem_of_lookup_imap_2 (req_at cs)).
    + unfold matched. simpl. rewrite Hnone. apply bool_decide_eq_false.
      by intros [? ?].
Qed.

Lemma request_view r :
  r ∈ recv_requests us cs →
  req_begin r ≤ req_end r ∧ req_end r ≤ length g
  ∧ length (Np.slice (zeros (Np.sum cs)) (req_begin r) (req_end r))
    = req_end r - req_begin r.
Proof.
  intros (i & u & -> & Hu)%elem_of_lookup_imap_1. simpl.
  pose proof (sum_take_mono cs i (S i)). pose proof (sum_take_le cs (S i)).
  rewrite groups_sum in *. split; [lia|]. split; [lia|].
  unfold Np.slice, zeros, Np.sum.
  rewrite length_take, length_drop, length_replicate, groups_sum. lia.
Qed.

End RunFacts.

Lemma incoming_None c env u :
  is_source c u →
  incoming c env u = None ↔ u ≠ PROC_NULL c ∧ env u = None.
Proof.
  intros Hsrc. unfold incoming. case_decide; [by split; [|intros []]|].
  rewrite decide_True by done. by split; [|intros []].
Qed.

(** X5: how the run ends on a well-formed index map.  It raises in the
    receive loop when a destination rank is no source of the
    communicator.  Otherwise it hangs in the wait exactly when a receive
    from some destination rank other than [MPI.PROC_NULL] is not
    matched, and then the wait is its last event.  When the destination
    ranks are ranks of the communicator and no rank sends, which is what
    happens when every rank runs this script, the run hangs exactly when
    the rank has an owned index that another rank ghosts. *)
Theorem run_hangs_iff_unmatched c env argsort im :
  wf_imap im → Np.is_argsort (owners im) (argsort (owners im)) →
  ∃ g, dest_list im = Some g
    ∧ (¬ Forall (is_source c) (ghost_groups g).1.1 →
       (run_plan c env argsort im).1 = Raised MPIError)
    ∧ (Forall (is_source c) (ghost_groups g).1.1 →
       ((run_plan c env argsort im).1 = Blocked
        ↔ ∃ u, u ∈ (ghost_groups g).1.1 ∧ u ≠ PROC_NULL c ∧ env u = None)
       ∧ ((run_plan c env argsort im).1 = Blocked →
          last (trace (run_plan c env argsort im).2)
          = Some (EvWaitall (all_requests (run_plan c env argsort im).2))))
    ∧ (Forall (is_rank c) (ghost_groups g).1.1 → (PROC_NULL c < 0)%Z →
       (∀ u, env u = None) →
       ((run_plan c env argsort im).1 = Blocked ↔ dest_pairs im ≠ [])).
Proof.
  intros Hwf Hsort. exists (dest_ranks_list im).
  split; [by apply dest_list_spec|].
  assert (Forall (is_source c) (ghost_groups (dest_ranks_list im)).1.1 →
          (run_plan c env argsort im).1 = Blocked
          ↔ ∃ u, u ∈ (ghost_groups (dest_ranks_list im)).1.1
                 ∧ u ≠ PROC_NULL c ∧ env u = None)
    as Hiff.
  { intros Hsrc. rewrite Forall_forall in Hsrc.
    transitivity (∃ u, u ∈ (ghost_groups (dest_ranks_list im)).1.1
                       ∧ incoming c env u = None).
    2:{ split; intros (u & Hu & H); exists u; (split; [done|]);
          by apply (incoming_None c env u (Hsrc u Hu)). }
    rewrite <- (matched_requests c env im), run_plan_run by done.
    rewrite decide_True by (by apply Forall_forall).
    unfold wait_result. rewrite state_posted_requests.
    change (Np.unique (dest_ranks_list im))
      with (ghost_groups (dest_ranks_list im)).1.1.
    rewrite accepted_all by (by apply Forall_forall).
    change (Np.unique_counts (dest_ranks_list im)).2
      with (ghost_groups (dest_ranks_list im)).1.2.
    repeat case_match; simpl; split; done. }
  split; [|split].
  - intros Hsrc. rewrite run_plan_run by done. by rewrite decide_False.
  - intros Hsrc. split; [by apply Hiff|].
    rewrite run_plan_run by done. rewrite decide_True by done.
    unfold wait_result.
    destruct (forallb (matched c env) _);
      [destruct (forallb (fits c env _) _)|]; cbn [fst snd]; try done.
    intros _. unfold log. cbn [trace all_requests]. apply last_snoc.
  - intros Hranks Hnull Hnone.
    assert (Forall (is_source c) (ghost_groups (dest_ranks_list im)).1.1)
      as Hsrc by (eapply Forall_impl; [exact Hranks|]; by left).
    rewrite (Hiff Hsrc).
    pose proof (dest_list_length im (dest_ranks_list im) Hwf
                  (dest_list_spec im Hwf)) as Hlen.
    pose proof (groups_sum im) as Hsum.
    pose proof (groups_lengths im) as Hlens.
    split.
    + intros (u & Hu & _) Hpairs.
      assert (dest_ranks_list im = []) as Hg.
      { apply length_zero_iff_nil. by rewrite Hlen, Hpairs. }
      rewrite Hg in Hu. by apply elem_of_nil in Hu.
    + intros Hpairs.
      destruct ((ghost_groups (dest_ranks_list im)).1.1) as [|u l] eqn:E.
      * exfalso. apply Hpairs. apply length_zero_iff_nil.
        rewrite <- Hlen, <- Hsum.
        destruct ((ghost_groups (dest_ranks_list im)).1.2); [done|].
        by simpl in Hlens.
      * exists u. split; [apply list_elem_of_here|].
        split; [|done]. apply Forall_cons in Hranks as [Hu _].
        unfold is_rank in Hu. lia.
Qed.

Lemma run_hangs_iff_unmatched_witness :
  wf_imap im_ex
  ∧ ((run_plan comm_ex (λ _, None) (Np.argsort_ins) im_ex).1 = Blocked
     ↔ dest_pairs im_ex ≠ []).
Proof.
  split; [apply im_ex_wf|].
  destruct (run_hangs_iff_unmatched comm_ex (λ _, None) (Np.argsort_ins) im_ex
              im_ex_wf (argsort_ins_ok _)) as (g & Hg & _ & _ & Hnone).
  injection Hg as <-. apply Hnone; [|done|done].
  repeat constructor; vm_compute; intuition congruence.
Defined.

Section Views.

Variable c : communicator.
Variable env : Z → option (list Z).
Variable im : IndexMap.

Let g := dest_ranks_list im.
Let us := (ghost_groups g).1.1.
Let cs := (ghost_groups g).1.2.

Lemma request_at i u :
  us !! i = Some u →
  ∃ n, cs !! i = Some n ∧ 0 < n
       ∧ req_end (req_at cs i u) = req_begin (req_at cs i u) + n
       ∧ req_end (req_at cs i u) ≤ length g.
Proof.
  intros Hu. destruct (unique_counts_count g i u Hu) as (n & Hc & Hpos & _).
  exists n. split; [done|]. split; [done|]. simpl. split.
  - by apply sum_take_S.
  - pose proof (groups_sum im) as Hs. pose proof (sum_take_le cs (S i)).
    unfold cs, g in *. lia.
Qed.

Lemma requests_disjoint i j r r' :
  i < j → recv_requests us cs !! i = Some r →
  recv_requests us cs !! j = Some r' → req_end r ≤ req_begin r'.
Proof.
  intros Hij (u & _ & ->)%recv_requests_lookup (u' & _ & ->)%recv_requests_lookup.
  simpl. apply sum_take_mono. lia.
Qed.

Lemma write_in_view r :
  r ∈ recv_requests us cs → fits c env (zeros (Np.sum cs)) r = true →
  (write_of (incoming c env) r).1 + length (write_of (incoming c env) r).2
  ≤ req_end r.
Proof.
  intros Hr Hfit. destruct (request_view im r Hr) as (Hle & _ & Hlen).
  unfold write_of, fits in *. simpl.
  destruct (incoming c env (req_source r)) as [m|]; simpl; [|lia].
  apply bool_decide_eq_true in Hfit. unfold cs, g in *. lia.
Qed.

Lemma length_foldl_deliver buf rs :
  length (foldl (deliver c env) buf rs) = length buf.
Proof.
  revert buf. induction rs as [|r rs IH]; intros buf; simpl; [done|].
  rewrite IH, deliver_write. apply length_inserts.
Qed.

End Views.

Lemma sum_list_with_length_fmap {A} (f : A → list Z) (l : list A) (cs : list nat) :
  length l = length cs →
  (∀ i x, l !! i = Some x → cs !! i = Some (length (f x))) →
  sum_list_with length (f <$> l) = sum_list cs.
Proof.
  revert cs. induction l as [|x l IH]; intros [|c cs] Hlen Hcs; try done.
  rewrite fmap_cons. cbn [sum_list_with]. injection (Hcs 0 x eq_refl) as ->.
  f_equal. apply IH; [by injection Hlen|].
  intros i y Hy. by apply (Hcs (S i)).
Qed.

(** X6: the receives tile the receive buffer.  The receives posted are
    those for the destination ranks before the first that is no source
    of the communicator.  When all are sources, there is one receive per
    destination rank, in the order of the ranks; the view of each is
    non-empty and as long as the group of its rank, the first view starts
    at 0, each view starts where the one before ends, and the last ends
    at the end of the buffer, so no two views overlap. *)
Theorem receive_views_tile_buffer c env argsort im :
  wf_imap im → Np.is_argsort (owners im) (argsort (owners im)) →
  ∃ g, dest_list im = Some g
    ∧ req_source <$> all_requests (run_plan c env argsort im).2
      = accepted c (ghost_groups g).1.1
    ∧ (Forall (is_source c) (ghost_groups g).1.1 →
       req_source <$> all_requests (run_plan c env argsort im).2
       = (ghost_groups g).1.1
       ∧ NoDup (req_source <$> all_requests (run_plan c env argsort im).2)
       ∧ length (recv_buff_idx_d (run_plan c env argsort im).2) = length g
       ∧ (∀ i r, all_requests (run_plan c env argsort im).2 !! i = Some r →
            (ghost_groups g).1.2 !! i = Some (req_end r - req_begin r)
            ∧ req_begin r < req_end r ∧ req_end r ≤ length g)
       ∧ (∀ r, head (all_requests (run_plan c env argsort im).2) = Some r →
            req_begin r = 0)
       ∧ (∀ i r r', all_requests (run_plan c env argsort im).2 !! i = Some r →
            all_requests (run_plan c env argsort im).2 !! (S i) = Some r' →
            req_begin r' = req_end r)
       ∧ (∀ r, last (all_requests (run_plan c env argsort im).2) = Some r →
            req_end r = length g)
       ∧ (∀ i j r r', i ≠ j →
            all_requests (run_plan c env argsort im).2 !! i = Some r →
            all_requests (run_plan c env argsort im).2 !! j = Some r' →
            disjoint_views r r')).
Proof.
  intros Hwf Hsort. exists (dest_ranks_list im).
  split; [by apply dest_list_spec|].
  split.
  { rewrite run_plan_all_requests by done. apply recv_requests_sources. }
  intros Hsrc.
  rewrite (run_plan_requests c env argsort im Hwf Hsort Hsrc).
  pose proof (groups_lengths im) as Hlens. pose proof (groups_sum im) as Hsum.
  set (g := dest_ranks_list im) in *.
  set (us := (ghost_groups g).1.1) in *.
  set (cs := (ghost_groups g).1.2) in *.
  split; [apply recv_requests_sources|].
  split; [rewrite recv_requests_sources; apply (unique_NoDup g)|].
  split.
  { rewrite run_plan_run by done. rewrite decide_True by done.
    unfold wait_result.
    repeat case_match; simpl; rewrite ?length_foldl_deliver;
      unfold zeros, Np.sum; rewrite length_replicate; apply Hsum. }
  split.
  { intros i r (u & Hu & ->)%recv_requests_lookup.
    destruct (request_at im i u Hu) as (n & Hc & Hpos & Hend & Hle).
    fold g cs in Hc, Hend, Hle. rewrite Hc. split; [f_equal; lia|].
    split; lia. }
  split.
  { intros r Hr. rewrite head_lookup in Hr.
    by apply recv_requests_lookup in Hr as (u & _ & ->). }
  split.
  { intros i r r' (u & _ & ->)%recv_requests_lookup
      (u' & _ & ->)%recv_requests_lookup. done. }
  split.
  { intros r Hr. rewrite last_lookup in Hr.
    pose proof Hr as Hlt%lookup_lt_Some.
    unfold recv_requests in Hlt. rewrite length_imap in Hlt.
    apply recv_requests_lookup in Hr as (u & Hu & ->).
    unfold recv_requests. rewrite length_imap. simpl.
    replace (S (pred (length us))) with (length us) by lia.
    rewrite take_ge by lia. apply Hsum. }
  intros i j r r' Hij Hr Hr'. unfold disjoint_views.
  destruct (decide (i < j)).
  - left. by eapply (requests_disjoint im i j).
  - right. eapply (requests_disjoint im j i); [lia|done..].
Qed.

Lemma receive_views_tile_buffer_witness :
  wf_imap im_ex
  ∧ ∃ g, dest_list im_ex = Some g
      ∧ NoDup (req_source
                 <$> all_requests
                       (run_plan comm_ex env_ex (Np.argsort_ins) im_ex).2).
Proof.
  split; [apply im_ex_wf|].
  destruct (receive_views_tile_buffer comm_ex env_ex (Np.argsort_ins) im_ex
              im_ex_wf (argsort_ins_ok _)) as (g & Hg & _ & Hall).
  exists g. split; [done|]. injection Hg as <-.
  apply Hall. repeat constructor; vm_compute; intuition congruence.
Defined.

(** X7: when the receive from every destination rank is matched by a
    message as long as its group, the run completes, the receive buffer is the messages one
    behind the other in the order of the ranks, and [ghosts_idx] has one
    entry for every (owned index, destination rank) pair. *)
Theorem received_buffer_is_concatenation c env argsort im :
  wf_imap im → Np.is_argsort (owners im) (argsort (owners im)) →
  ∃ g, dest_list im = Some g
    ∧ ((∀ i u, (ghost_groups g).1.1 !! i = Some u →
          ∃ m, incoming c env u = Some m
               ∧ (ghost_groups g).1.2 !! i = Some (length m)) →
       ∃ od gd s,
         run_plan c env argsort im = (Done (od, gd), s)
         ∧ recv_buff_idx_d s
           = concat ((λ u, default [] (incoming c env u))
                       <$> (ghost_groups g).1.1)
         ∧ ghosts_idx gd = to_local (recv_buff_idx_d s) im
         ∧ length (ghosts_idx gd) = length (dest_pairs im)).
Proof.
  intros Hwf Hsort. exists (dest_ranks_list im).
  split; [by apply dest_list_spec|].
  pose proof (groups_lengths im) as Hlens. pose proof (groups_sum im) as Hgsum.
  pose proof (dest_list_length im _ Hwf (dest_list_spec im Hwf)) as Hpairs.
  fold (dest_ranks_list im) in Hpairs.
  set (g := dest_ranks_list im) in *.
  set (us := (ghost_groups g).1.1) in *.
  set (cs := (ghost_groups g).1.2) in *.
  intros Hmsg.
  set (msgs := (λ u, default [] (incoming c env u)) <$> us).
  assert (Forall (is_source c) us) as Hsrc.
  { apply Forall_lookup. intros i u Hu.
    destruct (Hmsg i u Hu) as (m & Hm & _). unfold incoming in Hm.
    destruct (decide (u = PROC_NULL c)) as [->|]; [by right; left|].
    by destruct (decide (is_source c u)). }
  assert (sum_list_with length msgs = sum_list cs) as Hsum.
  { apply sum_list_with_length_fmap; [apply Hlens|].
    intros i u Hu. destruct (Hmsg i u Hu) as (m & -> & Hc). done. }
  assert (forallb (matched c env) (recv_requests us cs) = true) as Hmatched.
  { apply forallb_forall. intros r Hr%list_elem_of_In.
    apply list_elem_of_lookup in Hr as [i Hi].
    apply recv_requests_lookup in Hi as (u & Hu & ->).
    destruct (Hmsg i u Hu) as (m & Hm & _).
    unfold matched. simpl. rewrite Hm. by apply bool_decide_eq_true. }
  assert (forallb (fits c env (zeros (Np.sum cs))) (recv_requests us cs) = true)
    as Hfits.
  { apply forallb_forall. intros r Hr%list_elem_of_In.
    destruct (request_view im r Hr) as (_ & _ & Hlen).
    fold g cs in Hlen.
    apply list_elem_of_lookup in Hr as [i Hi].
    apply recv_requests_lookup in Hi as (u & Hu & ->).
    destruct (Hmsg i u Hu) as (m & Hm & Hc).
    unfold fits. simpl req_source. rewrite Hm. apply bool_decide_eq_true.
    rewrite Hlen. simpl. rewrite (sum_take_S _ _ _ Hc). lia. }
  assert (foldl (deliver c env) (zeros (Np.sum cs)) (recv_requests us cs)
          = concat msgs) as Hbuf.
  { rewrite foldl_deliver_writes. unfold recv_requests.
    rewrite (imap_ext _ (λ k, req_at cs (0 + k))) by done.
    rewrite writes_of_requests by (intros k u Hu; apply (Hmsg k u Hu)).
    simpl sum_list_with.
    change (foldl apply_write ([] ++ zeros (Np.sum cs))
              (writes_from (length (@nil Z)) msgs) = concat msgs).
    rewrite writes_chain
      by (unfold zeros, Np.sum; rewrite length_replicate; lia).
    simpl. rewrite drop_ge, app_nil_r; [done|].
    unfold zeros, Np.sum. rewrite length_replicate. lia. }
  eexists _, _, _. rewrite run_plan_run by done.
  rewrite decide_True by done. unfold wait_result.
  rewrite state_posted_requests, state_posted_buffer.
  change (Np.unique (dest_ranks_list im)) with us.
  rewrite accepted_all by done.
  change (Np.unique_counts (dest_ranks_list im)).2 with cs.
  rewrite Hmatched, Hfits, Hbuf. split; [reflexivity|].
  simpl. split; [done|]. split; [done|].
  unfold to_local. rewrite length_fmap, <- Hbuf, length_foldl_deliver.
  unfold zeros, Np.sum. rewrite length_replicate. lia.
Qed.

Lemma received_buffer_is_concatenation_witness :
  wf_imap im_ex
  ∧ ∃ od gd s,
      run_plan comm_ex env_ex (Np.argsort_ins) im_ex = (Done (od, gd), s)
      ∧ length (ghosts_idx gd) = length (dest_pairs im_ex).
Proof.
  split; [apply im_ex_wf|].
  destruct (received_buffer_is_concatenation comm_ex env_ex (Np.argsort_ins)
              im_ex im_ex_wf (argsort_ins_ok _)) as (g & Hg & Hrun).
  injection Hg as <-.
  destruct Hrun as (od & gd & s & Hrun & _ & _ & Hlen).
  - intros [|[|i]] u Hu; vm_compute in Hu; simplify_eq; eexists;
      split; reflexivity.
  - by exists od, gd, s.
Defined.

(** X8: the receive buffer does not depend on the order in which the
    receives complete.  When no message is longer than its view, writing
    the messages in any order of the requests gives the buffer that the
    order of posting gives. *)
Theorem received_buffer_order_independent c env argsort im rs' :
  wf_imap im → Np.is_argsort (owners im) (argsort (owners im)) →
  rs' ≡ₚ all_requests (run_plan c env argsort im).2 →
  ∃ g, dest_list im = Some g
    ∧ (forallb (fits c env (zeros (Np.sum (ghost_groups g).1.2)))
         (all_requests (run_plan c env argsort im).2) = true →
       foldl (deliver c env) (zeros (Np.sum (ghost_groups g).1.2)) rs'
       = foldl (deliver c env) (zeros (Np.sum (ghost_groups g).1.2))
           (all_requests (run_plan c env argsort im).2)).
Proof.
  intros Hwf Hsort Hperm. exists (dest_ranks_list im).
  split; [by apply dest_list_spec|].
  rewrite (run_plan_all_requests c env argsort im Hwf Hsort) in *.
  set (g := dest_ranks_list im) in *.
  set (us := (ghost_groups g).1.1) in *. set (cs := (ghost_groups g).1.2) in *.
  intros Hfits. rewrite forallb_forall in Hfits.
  rewrite !foldl_deliver_writes. symmetry.
  apply foldl_writes_perm; [|by rewrite Hperm].
  intros w1 w2 (r1 & -> & Hr1)%list_elem_of_fmap (r2 & -> & Hr2)%list_elem_of_fmap.
  pose proof (Hfits r1 (proj1 (list_elem_of_In _ _) Hr1)) as Hf1.
  pose proof (Hfits r2 (proj1 (list_elem_of_In _ _) Hr2)) as Hf2.
  apply list_elem_of_lookup in Hr1 as [i Hi].
  apply list_elem_of_lookup in Hr2 as [j Hj].
  apply recv_requests_accepted in Hi. apply recv_requests_accepted in Hj.
  pose proof (write_in_view c env im r1 (list_elem_of_lookup_2 _ _ _ Hi)) as Hv1.
  pose proof (write_in_view c env im r2 (list_elem_of_lookup_2 _ _ _ Hj)) as Hv2.
  fold g cs in Hv1, Hv2.
  specialize (Hv1 Hf1). specialize (Hv2 Hf2).
  destruct (decide (i = j)) as [->|Hne]; [left; congruence|right].
  destruct (decide (i < j)).
  - left. etrans; [exact Hv1|].
    exact (requests_disjoint im i j r1 r2 ltac:(lia) Hi Hj).
  - right. etrans; [exact Hv2|].
    exact (requests_disjoint im j i r2 r1 ltac:(lia) Hj Hi).
Qed.

Lemma received_buffer_order_independent_witness :
  wf_imap im_ex
  ∧ ∃ g, dest_list im_ex = Some g
      ∧ foldl (deliver comm_ex env_ex) (zeros (Np.sum (ghost_groups g).1.2))
          [ {| req_begin := 1; req_end := 3; req_source := 2 |};
            {| req_begin := 0; req_end := 1; req_source := 1 |} ]
        = foldl (deliver comm_ex env_ex)
            (zeros (Np.sum (ghost_groups g).1.2))
            (all_requests
               (run_plan comm_ex env_ex (Np.argsort_ins) im_ex).2).
Proof.
  split; [apply im_ex_wf|].
  destruct (received_buffer_order_independent comm_ex env_ex
              (Np.argsort_ins) im_ex
              [ {| req_begin := 1; req_end := 3; req_source := 2 |};
                {| req_begin := 0; req_end := 1; req_source := 1 |} ]
              im_ex_wf (argsort_ins_ok _)) as (g & Hg & Heq).
  - vm_compute. apply Permutation_swap.
  - exists g. split; [done|]. apply Heq. injection Hg as <-. reflexivity.
Defined.

(** ** Launches of the kernel *)

Section LaunchFacts.

Context {T : Type}.
Variables (in0 out0 : list T).

(** One work-item, for a range inside [in_] that fits [out_]. *)
Lemma copy_range_step (out1 : list T) (b e : nat) gridDim t :
  in_launch gridDim t →
  b ≤ e ≤ length in0 → e - b ≤ length out1 →
  (Z.of_nat (length in0) < 2 ^ 63)%Z →
  ∃ j, global_index t = Z.of_nat j
    ∧ ((j < e - b ∧ ∃ v, in0 !! (b + j) = Some v
                        ∧ copy_range in0 out1 (Z.of_nat b) (Z.of_nat e) t
                          = Some (<[j:=v]> out1))
       ∨ (e - b ≤ j
          ∧ copy_range in0 out1 (Z.of_nat b) (Z.of_nat e) t = Some out1)).
Proof.
  intros Hl Hbe Hout Hmem.
  destruct (global_index_launch gridDim t Hl) as [Hidx Hrange].
  exists (Z.to_nat (global_index t)). split; [lia|].
  unfold copy_range.
  rewrite (wrap64_id (Z.of_nat e - Z.of_nat b)) by (unfold int64; lia).
  destruct (global_index t <? Z.of_nat e - Z.of_nat b)%Z eqn:E.
  - left. apply Z.ltb_lt in E. split; [lia|].
    rewrite wrap64_id by (unfold int64; lia).
    rewrite aget_nonneg by lia.
    replace (Z.to_nat (global_index t + Z.of_nat b))
      with (b + Z.to_nat (global_index t)) by lia.
    destruct (in0 !! (b + Z.to_nat (global_index t))) as [v|] eqn:Hv.
    + exists v. split; [done|]. apply aset_nonneg. lia.
    + apply lookup_ge_None_1 in Hv. lia.
  - right. apply Z.ltb_ge in E. split; [lia|done].
Qed.

(** Any work-items of a launch, in any order and number: which cells
    they have written, and with what. *)
Lemma run_threads_spec (b e : nat) gridDim ts :
  Forall (in_launch gridDim) ts →
  b ≤ e ≤ length in0 → (Z.of_nat (length in0) < 2 ^ 63)%Z →
  ∀ out1, e - b ≤ length out1 →
  ∃ out', run_threads in0 out1 (Z.of_nat b) (Z.of_nat e) ts = Some out'
    ∧ length out' = length out1
    ∧ ∀ j, out' !! j
           = if decide (j < e - b ∧ has_index ts j) then in0 !! (b + j)
             else out1 !! j.
Proof.
  intros Hts Hbe Hmem.
  induction Hts as [|t ts Ht _ IH]; intros out1 Hout; simpl.
  - exists out1. split; [done|]. split; [done|]. intros j.
    rewrite decide_False; [done|]. intros [_ H]. by apply Exists_nil in H.
  - destruct (copy_range_step out1 b e gridDim t Ht Hbe Hout Hmem)
      as (k & Hk & [(Hlt & v & Hv & ->)|(Hge & ->)]).
    + destruct (IH (<[k:=v]> out1)) as (out' & -> & Hlen & Hspec);
        [by rewrite length_insert|].
      exists out'. split; [done|]. rewrite length_insert in Hlen.
      split; [done|]. intros j. rewrite Hspec. unfold has_index.
      destruct (decide (j < e - b ∧ Exists _ ts)) as [Hin|Hnin].
      * rewrite decide_True; [done|]. destruct Hin. split; [done|].
        by apply Exists_cons_tl.
      * destruct (decide (j = k)) as [->|Hne].
        -- rewrite decide_True by (split; [done|by apply Exists_cons_hd]).
           rewrite list_lookup_insert_eq by lia. done.
        -- rewrite list_lookup_insert_ne by done.
           rewrite decide_False; [done|]. intros [? Hex]. apply Hnin.
           split; [done|]. apply Exists_cons in Hex as [Hex|Hex]; [lia|done].
    + destruct (IH out1 Hout) as (out' & -> & Hlen & Hspec).
      exists out'. split; [done|]. split; [done|]. intros j.
      rewrite Hspec. unfold has_index.
      destruct (decide (j < e - b ∧ Exists _ ts)) as [Hin|Hnin].
      * rewrite decide_True; [done|]. destruct Hin. split; [done|].
        by apply Exists_cons_tl.
      * rewrite decide_False; [done|]. intros [? Hex]. apply Hnin.
        split; [done|]. apply Exists_cons in Hex as [Hex|Hex]; [lia|done].
Qed.

End LaunchFacts.

Lemma elem_of_launch_threads gridDim blockDim t :
  t ∈ launch_threads gridDim blockDim
  ↔ ∃ bid tid, bid < gridDim ∧ tid < blockDim
      ∧ t = {| threadIdx := Z.of_nat tid; blockIdx := Z.of_nat bid;
               blockDim := Z.of_nat blockDim |}.
Proof.
  unfold launch_threads. rewrite list_elem_of_bind. split.
  - intros (bid & Ht & Hbid%elem_of_seq).
    apply list_elem_of_bind in Ht as (tid & Ht & Htid%elem_of_seq).
    apply list_elem_of_singleton in Ht. exists bid, tid.
    split; [lia|]. split; [lia|done].
  - intros (bid & tid & Hbid & Htid & ->). exists bid. split.
    + apply list_elem_of_bind. exists tid.
      split; [apply list_elem_of_here|apply elem_of_seq; lia].
    + apply elem_of_seq. lia.
Qed.

Lemma launch_threads_in_launch gridDim blockDim :
  blockDim ≤ 1024 → (Z.of_nat gridDim ≤ 2 ^ 31 - 1)%Z →
  Forall (in_launch (Z.of_nat gridDim)) (launch_threads gridDim blockDim).
Proof.
  intros HB HG. apply Forall_forall.
  intros t (bid & tid & Hbid & Htid & ->)%elem_of_launch_threads.
  unfold in_launch. simpl. lia.
Qed.

(** A launch has one work-item for every global index below
    [gridDim * blockDim], and none above. *)
Lemma launch_has_index gridDim blockDim j :
  blockDim ≤ 1024 → (Z.of_nat gridDim ≤ 2 ^ 31 - 1)%Z →
  has_index (launch_threads gridDim blockDim) j ↔ j < gridDim * blockDim.
Proof.
  intros HB HG. unfold has_index. rewrite Exists_exists. split.
  - intros (t & Ht & Hj).
    pose proof (launch_threads_in_launch gridDim blockDim HB HG) as Hall.
    rewrite Forall_forall in Hall.
    destruct (global_index_launch _ t (Hall t Ht)) as [Hidx _].
    apply elem_of_launch_threads in Ht as (bid & tid & Hbid & Htid & ->).
    simpl in Hidx. rewrite Hidx in Hj. nia.
  - intros Hj. assert (0 < blockDim) by (destruct blockDim; lia).
    exists {| threadIdx := Z.of_nat (j mod blockDim);
              blockIdx := Z.of_nat (j / blockDim);
              blockDim := Z.of_nat blockDim |}.
    assert (j mod blockDim < blockDim) by (apply Nat.mod_upper_bound; lia).
    assert (j / blockDim < gridDim)
      by (apply Nat.Div0.div_lt_upper_bound; lia).
    split.
    + apply elem_of_launch_threads. by exists (j / blockDim), (j mod blockDim).
    + assert (in_launch (Z.of_nat gridDim)
                {| threadIdx := Z.of_nat (j mod blockDim);
                   blockIdx := Z.of_nat (j / blockDim);
                   blockDim := Z.of_nat blockDim |}) as Hl
        by (unfold in_launch; simpl; lia).
      destruct (global_index_launch _ _ Hl) as [-> _]. simpl.
      rewrite (Nat.div_mod_eq j blockDim) at 3. lia.
Qed.

(** X9: a launch copies the range.  For a range inside [in_] that fits
    [out_], the work-items of a launch, run in any order, leave in
    [out_] the first [gridDim * blockDim] elements of [in_[begin:end]],
    followed by what [out_] held behind them: with at least
    [end - begin] work-items, [out_[:end - begin]] is
    [in_[begin:end]]. *)
Theorem copy_range_launch_copies_range {T} (in_ out_ : list T)
    (b e gridDim blockDim : nat) ts :
  b ≤ e ≤ length in_ → e - b ≤ length out_ →
  (Z.of_nat (length in_) < 2 ^ 63)%Z →
  blockDim ≤ 1024 → (Z.of_nat gridDim ≤ 2 ^ 31 - 1)%Z →
  ts ≡ₚ launch_threads gridDim blockDim →
  run_threads in_ out_ (Z.of_nat b) (Z.of_nat e) ts
  = Some (take (gridDim * blockDim) (Np.slice in_ b e)
          ++ drop (min (e - b) (gridDim * blockDim)) out_).
Proof.
  intros Hbe Hout Hmem HB HG Hperm.
  assert (Forall (in_launch (Z.of_nat gridDim)) ts) as Hall
    by (rewrite Hperm; by apply launch_threads_in_launch).
  destruct (run_threads_spec in_ b e _ ts Hall Hbe Hmem out_ Hout)
    as (out' & -> & Hlen & Hspec).
  f_equal. apply list_eq. intros j. rewrite Hspec.
  assert (length (Np.slice in_ b e) = e - b) as Hslice
    by (unfold Np.slice; rewrite length_take, length_drop; lia).
  assert (has_index ts j ↔ j < gridDim * blockDim) as Hidx.
  { unfold has_index. rewrite Hperm. by apply launch_has_index. }
  destruct (decide (j < min (e - b) (gridDim * blockDim))) as [Hj|Hj].
  - rewrite decide_True by (rewrite Hidx; lia).
    rewrite lookup_app_l by (rewrite length_take; lia).
    rewrite lookup_take_lt by lia. unfold Np.slice.
    rewrite lookup_take_lt by lia. by rewrite lookup_drop.
  - rewrite decide_False by (rewrite Hidx; lia).
    rewrite lookup_app_r by (rewrite length_take; lia).
    rewrite length_take, Hslice, lookup_drop. f_equal. lia.
Qed.

Lemma copy_range_launch_copies_range_witness :
  run_threads [10; 20; 30; 40; 50]%Z [0; 0; 0; 0]%Z (Z.of_nat 1) (Z.of_nat 4)
    (launch_threads 2 2)
  = Some (take (2 * 2) (Np.slice [10; 20; 30; 40; 50]%Z 1 4)
          ++ drop (min (4 - 1) (2 * 2)) [0; 0; 0; 0]%Z).
Proof.
  apply (copy_range_launch_copies_range [10; 20; 30; 40; 50]%Z
           [0; 0; 0; 0]%Z 1 4 2 2 (launch_threads 2 2));
    simpl; try lia; done.
Defined.

(** X10: the guard keeps every launch inside the arrays.  For a range
    inside [in_] that fits [out_], any work-items of a launch of any
    size, also one with far more work-items than elements, make no access
    outside the arrays; [out_] keeps its length, the cells from
    [end - begin] on keep their content, and a cell below holds its
    element of [in_[begin:end]] or its old content. *)
Theorem copy_range_launch_stays_in_bounds {T} (in_ out_ : list T)
    (b e : nat) gridDim ts :
  b ≤ e ≤ length in_ → e - b ≤ length out_ →
  (Z.of_nat (length in_) < 2 ^ 63)%Z →
  Forall (in_launch gridDim) ts →
  ∃ out', run_threads in_ out_ (Z.of_nat b) (Z.of_nat e) ts = Some out'
    ∧ length out' = length out_
    ∧ (∀ j, e - b ≤ j → out' !! j = out_ !! j)
    ∧ (∀ j, j < e - b →
         out' !! j = in_ !! (b + j) ∨ out' !! j = out_ !! j).
Proof.
  intros Hbe Hout Hmem Hall.
  destruct (run_threads_spec in_ b e _ ts Hall Hbe Hmem out_ Hout)
    as (out' & Hrun & Hlen & Hspec).
  exists out'. split; [done|]. split; [done|]. split.
  - intros j Hj. rewrite Hspec. rewrite decide_False; [done|]. lia.
  - intros j Hj. rewrite Hspec. case_decide; auto.
Qed.

Lemma copy_range_launch_stays_in_bounds_witness :
  ∃ out', run_threads [10; 20; 30; 40; 50]%Z [0; 0; 0; 0]%Z
            (Z.of_nat 1) (Z.of_nat 3) [thread_ex; thread_in; thread_ex]
          = Some out'
    ∧ length out' = 4.
Proof.
  destruct (copy_range_launch_stays_in_bounds [10; 20; 30; 40; 50]%Z
              [0; 0; 0; 0]%Z 1 3 2 [thread_ex; thread_in; thread_ex])
    as (out' & Hrun & Hlen & _).
  - simpl. lia.
  - simpl. lia.
  - simpl. lia.
  - repeat constructor; simpl; lia.
  - by exists out'.
Defined.

(** X11: an empty or inverted range makes a launch a no-op.  When [end]
    is not above [begin], no work-item reads or writes anything,
    whatever the arrays hold and however short they are. *)
Theorem copy_range_empty_range_is_noop {T} (in_ out_ : list T)
    begin end_ gridDim ts :
  (end_ ≤ begin)%Z → int64 (end_ - begin) →
  Forall (in_launch gridDim) ts →
  run_threads in_ out_ begin end_ ts = Some out_.
Proof.
  intros Hle Hd Hall. induction Hall as [|t ts Ht _ IH]; simpl; [done|].
  destruct (global_index_launch gridDim t Ht) as [_ Hrange].
  unfold copy_range. rewrite (wrap64_id (end_ - begin)) by done.
  destruct (global_index t <? end_ - begin)%Z eqn:E; [|done].
  apply Z.ltb_lt in E. lia.
Qed.

Lemma copy_range_empty_range_is_noop_witness :
  run_threads (@nil Z) [] 5 5 [thread_ex; thread_in] = Some [].
Proof.
  apply (copy_range_empty_range_is_noop (@nil Z) [] 5 5 2);
    [lia|unfold int64; lia|].
  repeat constructor; simpl; lia.
Defined.

(** ** [demo_linear.py] *)

Section DemoFacts.

Import Demo.

(** X12: the table of quadrature degrees has the basis degrees 2 to 10
    as keys, any other degree is a missing key, and the quadrature degree
    of basis degree [P] is [2 P - 2], but 3 for [P = 2]. *)
Theorem quadrature_degree_table (P d : Z) :
  (quadrature_degree !! P = Some d
   ↔ (2 ≤ P ≤ 10)%Z ∧ d = Z.max 3 (2 * P - 2))
  ∧ (quadrature_degree !! P = None ↔ (P < 2 ∨ 10 < P)%Z).
Proof.
  assert (∀ d', quadrature_degree !! P = Some d'
                ↔ (2 ≤ P ≤ 10)%Z ∧ d' = Z.max 3 (2 * P - 2)) as Hsome.
  { intros d'. unfold quadrature_degree.
    rewrite <- elem_of_list_to_map by (vm_compute; apply (bool_decide_unpack _); by vm_compute).
    rewrite !elem_of_cons, elem_of_nil. split.
    - intros H. repeat (destruct H as [H|H]; [injection H as -> ->; lia|]).
      done.
    - intros [HP ->].
      assert (P = 2 ∨ P = 3 ∨ P = 4 ∨ P = 5 ∨ P = 6 ∨ P = 7 ∨ P = 8 ∨ P = 9
              ∨ P = 10)%Z as HPs by lia.
      repeat (destruct HPs as [->|HPs]; [tauto|]). subst. tauto. }
  split; [apply Hsome|].
  rewrite eq_None_not_Some. unfold is_Some. split.
  - intros Hnone. destruct (decide (2 ≤ P ≤ 10)%Z) as [HP|HP]; [|lia].
    exfalso. apply Hnone. exists (Z.max 3 (2 * P - 2)). by apply Hsome.
  - intros HP [d' Hd']. apply Hsome in Hd'. lia.
Qed.

(** The selection of the facets of one tag. *)
Lemma select_tag_elem indices values tag f x :
  select_tag indices values tag = Some f →
  x ∈ f ↔ ∃ i, indices !! i = Some x ∧ values !! i = Some tag.
Proof.
  unfold select_tag. case_decide.
  2:{ case_decide as Hv; [|done]. intros [= <-]. subst values. split.
      - by intros ?%elem_of_nil.
      - by intros (i & _ & ?). }
  intros [= <-]. rewrite list_elem_of_fmap. split.
  - intros ([x' v] & -> & Hin). apply list_elem_of_filter in Hin as [Hv Hin].
    simpl in *. subst v. apply list_elem_of_lookup in Hin as [i Hi].
    apply lookup_zip_Some in Hi. by exists i.
  - intros (i & Hx & Hv). exists (x, tag). split; [done|].
    apply list_elem_of_filter. split; [done|].
    apply list_elem_of_lookup. exists i. by apply lookup_zip_Some.
Qed.

Lemma filter_exclusive_length {A} (P Q : A → Prop)
    `{∀ x, Decision (P x), ∀ x, Decision (Q x)} (l : list A) :
  (∀ x, P x → Q x → False) →
  length (filter P l) + length (filter Q l) ≤ length l.
Proof.
  intros Hex. induction l as [|x l IH]; simpl; [done|].
  rewrite !filter_cons.
  destruct (decide (P x)) as [HP|HP], (decide (Q x)) as [HQ|HQ]; simpl;
    try lia.
  by destruct (Hex x).
Qed.

(** X13: the boundary facets of two tags.  For tags of the length of the
    facet indices, the facets selected for a tag are a sublist of the
    indices and are exactly the facets that carry the tag; the selections
    for two different tags share no facet and have together no more
    facets than there are.  Tags of another length raise, but for no
    tags at all, which select nothing whatever the indices. *)
Theorem boundary_facets_by_tag indices values t1 t2 :
  (length values ≠ length indices → values ≠ [] →
   select_tag indices values t1 = None)
  ∧ (values = [] → select_tag indices values t1 = Some [])
  ∧ (length values = length indices → t1 ≠ t2 → NoDup indices →
     ∃ f1 f2,
       select_tag indices values t1 = Some f1
       ∧ select_tag indices values t2 = Some f2
       ∧ f1 `sublist_of` indices ∧ f2 `sublist_of` indices
       ∧ (∀ i x, indices !! i = Some x → x ∈ f1 ↔ values !! i = Some t1)
       ∧ (∀ x, x ∈ f1 → x ∉ f2)
       ∧ length f1 + length f2 ≤ length indices).
Proof.
  split.
  { intros Hne Hv. unfold select_tag. by rewrite !decide_False. }
  split.
  { intros ->. unfold select_tag. case_decide as Hl; [|done].
    simpl in Hl. symmetry in Hl. apply length_zero_iff_nil in Hl.
    by rewrite Hl. }
  intros Hlen Hne Hnd.
  destruct (select_tag indices values t1) as [f1|] eqn:E1;
    [|unfold select_tag in E1; by rewrite decide_True in E1].
  destruct (select_tag indices values t2) as [f2|] eqn:E2;
    [|unfold select_tag in E2; by rewrite decide_True in E2].
  exists f1, f2. split; [done|]. split; [done|].
  assert (∀ t f, select_tag indices values t = Some f →
                 f `sublist_of` indices) as Hsub.
  { intros t f. unfold select_tag. rewrite decide_True by done.
    intros [= <-]. rewrite <- (fst_zip indices values) at 2 by lia.
    apply fmap_sublist, sublist_filter. }
  split; [by eapply Hsub|]. split; [by eapply Hsub|]. split; [|split].
  - intros i x Hx. rewrite (select_tag_elem _ _ _ _ _ E1). split.
    + intros (i' & Hx' & Hv).
      by rewrite (NoDup_lookup _ _ _ _ Hnd Hx Hx').
    + intros Hv. by exists i.
  - intros x (i & Hx & Hv)%(select_tag_elem _ _ _ _ _ E1)
      (i' & Hx' & Hv')%(select_tag_elem _ _ _ _ _ E2).
    rewrite (NoDup_lookup _ _ _ _ Hnd Hx Hx') in Hv. congruence.
  - unfold select_tag in E1, E2. rewrite decide_True in E1, E2 by done.
    injection E1 as <-. injection E2 as <-. rewrite !length_fmap.
    etrans; [apply filter_exclusive_length|].
    + intros [x v] Hv1 Hv2. simpl in *. congruence.
    + rewrite length_zip. lia.
Qed.

Lemma boundary_facets_by_tag_witness :
  ∃ f1 f2,
    select_tag [5; 6; 7; 8]%Z [1; 2; 1; 0]%Z 1 = Some f1
    ∧ select_tag [5; 6; 7; 8]%Z [1; 2; 1; 0]%Z 2 = Some f2
    ∧ (∀ x, x ∈ f1 → x ∉ f2).
Proof.
  destruct (boundary_facets_by_tag [5; 6; 7; 8]%Z [1; 2; 1; 0]%Z 1 2)
    as (_ & _ & Hsel).
  destruct Hsel as (f1 & f2 & H1 & H2 & _ & _ & _ & Hdisj & _);
    [reflexivity|lia| |by exists f1, f2].
  apply (bool_decide_unpack _). by vm_compute.
Defined.


(** The rows of [np.c_]. *)
Lemma c_lookup {T} (a b c : list T) (rows : list (list T)) q p :
  c_ a b c = Some rows →
  rows !! q = Some p ↔
  ∃ x y z, p = [x; y; z] ∧ a !! q = Some x ∧ b !! q = Some y ∧ c !! q = Some z.
Proof.
  unfold c_. case_decide; [|done]. intros [= <-].
  rewrite lookup_zip_with_Some. split.
  - intros (x & [y z] & -> & Hx & Hyz). apply lookup_zip_Some in Hyz as [??].
    by exists x, y, z.
  - intros (x & y & z & -> & Hx & Hy & Hz). exists x, (y, z).
    split; [done|]. split; [done|]. by apply lookup_zip_Some.
Qed.

Lemma c_length {T} (a b c : list T) (rows : list (list T)) :
  c_ a b c = Some rows → length rows = length a.
Proof.
  unfold c_. case_decide as Hl; [|done]. intros [= <-].
  rewrite length_zip_with, length_zip. lia.
Qed.

Lemma c_Some {T} (a b c : list T) :
  length a = length b → length b = length c → is_Some (c_ a b c).
Proof. intros ??. unfold c_. by rewrite decide_True. Qed.

(** X14: the evaluation points on the six facets of the reference
    hexahedron.  With as many points as weights there are six facets of
    [nq_f] points each; point [q] of facet [f] has the constant of the
    facet (0 on the first three facets and 1 on the last three) at the
    coordinate of the facet (z, y, x, x, y, z) and the two coordinates of
    point [q] of the quadrilateral, in their order, at the two others.
    With another number of points the script raises. *)
Theorem facet_points_on_facets {T} (zero one : T) (pts_f : list (T * T))
    (nq_f : nat) :
  (length pts_f ≠ nq_f → facet_points zero one pts_f nq_f = None)
  ∧ (length pts_f = nq_f →
     ∃ F, facet_points zero one pts_f nq_f = Some F
       ∧ length F = 6
       ∧ ∀ f face, F !! f = Some face →
           length face = nq_f
           ∧ ∀ q p, face !! q = Some p →
               p !! facet_axis f = Some (facet_value zero one f)
               ∧ ∃ xy, pts_f !! q = Some xy
                   ∧ delete (facet_axis f) p = [xy.1; xy.2]).
Proof.
  split.
  { intros Hne. unfold facet_points, c_.
    rewrite !length_fmap, !length_replicate.
    rewrite (decide_False (P := length pts_f = length pts_f
                                ∧ length pts_f = nq_f)) by tauto.
    done. }
  intros Hlen. unfold facet_points.
  assert (length (pts_f.*1) = nq_f) as H1 by by rewrite length_fmap.
  assert (length (pts_f.*2) = nq_f) as H2 by by rewrite length_fmap.
  assert (∀ x : T, length (replicate nq_f x) = nq_f) as Hr
    by (intros; apply length_replicate).
  destruct (c_ (pts_f.*1) (pts_f.*2) (replicate nq_f zero)) as [f0|] eqn:E0;
    [|by destruct (c_Some (pts_f.*1) (pts_f.*2) (replicate nq_f zero));
         rewrite ?Hr; congruence].
  destruct (c_ (pts_f.*1) (replicate nq_f zero) (pts_f.*2)) as [f1|] eqn:E1;
    [|by destruct (c_Some (pts_f.*1) (replicate nq_f zero) (pts_f.*2));
         rewrite ?Hr; congruence].
  destruct (c_ (replicate nq_f zero) (pts_f.*1) (pts_f.*2)) as [f2|] eqn:E2;
    [|by destruct (c_Some (replicate nq_f zero) (pts_f.*1) (pts_f.*2));
         rewrite ?Hr; congruence].
  destruct (c_ (replicate nq_f one) (pts_f.*1) (pts_f.*2)) as [f3|] eqn:E3;
    [|by destruct (c_Some (replicate nq_f one) (pts_f.*1) (pts_f.*2));
         rewrite ?Hr; congruence].
  destruct (c_ (pts_f.*1) (replicate nq_f one) (pts_f.*2)) as [f4|] eqn:E4;
    [|by destruct (c_Some (pts_f.*1) (replicate nq_f one) (pts_f.*2));
         rewrite ?Hr; congruence].
  destruct (c_ (pts_f.*1) (pts_f.*2) (replicate nq_f one)) as [f5|] eqn:E5;
    [|by destruct (c_Some (pts_f.*1) (pts_f.*2) (replicate nq_f one));
         rewrite ?Hr; congruence].
  eexists. split; [done|]. split; [done|].
  assert (∀ q x y, (pts_f.*1) !! q = Some x → (pts_f.*2) !! q = Some y →
                   ∃ xy, pts_f !! q = Some xy ∧ [x; y] = [xy.1; xy.2]) as Hxy.
  { intros q x y. rewrite !list_lookup_fmap.
    destruct (pts_f !! q) as [xy|]; [|done]. simpl. intros [= <-] [= <-].
    by exists xy. }
  assert (∀ q (c x : T), replicate nq_f c !! q = Some x → x = c) as Hc.
  { intros q c x Hq. by apply lookup_replicate in Hq as [-> _]. }
  intros f face Hf.
  destruct f as [|[|[|[|[|[|f]]]]]]; simpl in Hf; try done;
    injection Hf as <-.
  - split; [apply c_length in E0; congruence|].
    intros q p (x & y & z & -> & Hx & Hy & Hz)%(c_lookup _ _ _ _ _ _ E0).
    apply Hc in Hz as ->. split; [done|]. by apply Hxy.
  - split; [apply c_length in E1; congruence|].
    intros q p (x & y & z & -> & Hx & Hy & Hz)%(c_lookup _ _ _ _ _ _ E1).
    apply Hc in Hy as ->. split; [done|]. by apply Hxy.
  - split; [apply c_length in E2; rewrite Hr in E2; congruence|].
    intros q p (x & y & z & -> & Hx & Hy & Hz)%(c_lookup _ _ _ _ _ _ E2).
    apply Hc in Hx as ->. split; [done|]. by apply Hxy.
  - split; [apply c_length in E3; rewrite Hr in E3; congruence|].
    intros q p (x & y & z & -> & Hx & Hy & Hz)%(c_lookup _ _ _ _ _ _ E3).
    apply Hc in Hx as ->. split; [done|]. by apply Hxy.
  - split; [apply c_length in E4; congruence|].
    intros q p (x & y & z & -> & Hx & Hy & Hz)%(c_lookup _ _ _ _ _ _ E4).
    apply Hc in Hy as ->. split; [done|]. by apply Hxy.
  - split; [apply c_length in E5; congruence|].
    intros q p (x & y & z & -> & Hx & Hy & Hz)%(c_lookup _ _ _ _ _ _ E5).
    apply Hc in Hz as ->. split; [done|]. by apply Hxy.
Qed.

Lemma facet_points_on_facets_witness :
  facet_points 0%Z 1%Z [(2, 3); (4, 5)]%Z 3 = None
  ∧ ∃ F, facet_points 0%Z 1%Z [(2, 3); (4, 5)]%Z 2 = Some F ∧ length F = 6.
Proof.
  split.
  - apply (facet_points_on_facets 0%Z 1%Z [(2, 3); (4, 5)]%Z 3). simpl. lia.
  - destruct (facet_points_on_facets 0%Z 1%Z [(2, 3); (4, 5)]%Z 2)
      as [_ HF].
    destruct HF as (F & HF & Hlen & _); [reflexivity|]. by exists F.
Defined.

(** The loop over the boundary facets: the rows from [i] on are
    written, the others are kept. *)
Lemma fill_bfacet_spec dofmap lfd ncols bd : ∀ i B,
  Forall (λ cf, ∃ row, facet_row dofmap lfd cf.1 cf.2 = Some row
                       ∧ length row = ncols) bd →
  i + length bd ≤ length B →
  ∃ B', fill_bfacet dofmap lfd ncols i bd B = Some B'
    ∧ length B' = length B
    ∧ (∀ j, j < i → B' !! j = B !! j)
    ∧ (∀ j, i + length bd ≤ j → B' !! j = B !! j)
    ∧ (∀ j cf, bd !! j = Some cf →
         B' !! (i + j) = facet_row dofmap lfd cf.1 cf.2).
Proof.
  induction bd as [|[cell lf] bd IH]; intros i B Hall Hlen; simpl in *.
  { exists B. repeat split; try done. }
  apply Forall_cons in Hall as [(row & Hrow & Hrl) Hall]. simpl in Hrow.
  rewrite Hrow. destruct (lookup_lt_is_Some_2 B i) as [old Hold]; [lia|].
  rewrite Hold. unfold assign_row. rewrite decide_True by done.
  destruct (IH (S i) (<[i:=row]> B) Hall) as (B' & HB' & Hl & Hlo & Hhi & Hat).
  { rewrite length_insert. lia. }
  exists B'. split; [done|]. rewrite length_insert in Hl. split; [done|].
  split; [|split].
  - intros j Hj. rewrite Hlo by lia. apply list_lookup_insert_ne. lia.
  - intros j Hj. rewrite Hhi by lia. apply list_lookup_insert_ne. lia.
  - intros [|j] cf Hcf; simpl in Hcf.
    + injection Hcf as <-. simpl. rewrite Nat.add_0_r, Hlo by lia.
      rewrite Hrow. apply list_lookup_insert_eq. lia.
    + replace (i + S j) with (S i + j) by lia. by apply Hat.
Qed.

Lemma fill_bfacet_raises dofmap lfd ncols bd : ∀ i B cf,
  cf ∈ bd → facet_row dofmap lfd cf.1 cf.2 = None →
  fill_bfacet dofmap lfd ncols i bd B = None.
Proof.
  induction bd as [|[cell lf] bd IH]; intros i B cf Hin Hnone; simpl.
  { by apply elem_of_nil in Hin. }
  apply elem_of_cons in Hin as [->|Hin]; simpl in *; [by rewrite Hnone|].
  destruct (facet_row dofmap lfd cell lf); [|done].
  destruct (B !! i); [|done].
  destruct (assign_row ncols l); [|done]. by eapply IH.
Qed.

Lemma facet_row_total dofmap (lfd : list (list nat)) ncols ndofs cell lf :
  Forall (λ r, length r = ncols ∧ Forall (λ k, k < ndofs) r) lfd →
  Forall (λ r, length r = ndofs) dofmap →
  cell < length dofmap → lf < length lfd →
  facet_row dofmap lfd cell lf = Some (facet_dofs dofmap lfd (cell, lf))
  ∧ length (facet_dofs dofmap lfd (cell, lf)) = ncols.
Proof.
  intros Hlfd Hdm Hc Hf. unfold facet_row, facet_dofs. simpl.
  rewrite (list_lookup_lookup_total_lt dofmap cell) by done.
  rewrite (list_lookup_lookup_total_lt lfd lf) by done.
  rewrite Forall_lookup in Hlfd. rewrite Forall_lookup in Hdm.
  destruct (Hlfd lf (lfd !!! lf)) as [Hl Hk];
    [by apply list_lookup_lookup_total_lt|].
  rewrite length_fmap. split; [|done]. apply take_idx_total.
  rewrite (Hdm cell (dofmap !!! cell))
    by by apply list_lookup_lookup_total_lt.
  done.
Qed.

(** X15: the degrees of freedom of the boundary facets.  When the table
    of the degrees of freedom of the facets of a cell is rectangular, not
    empty and holds local numbers of the cell, and the cells and facets
    of the boundary data exist, the loop fills one row for each boundary
    facet, in the order of the boundary data: the degrees of freedom of
    its cell at the local numbers of its facet.  A cell or a facet that
    does not exist makes the script raise. *)
Theorem bfacet_dofmap_gathers_facet_dofs dofmap local_facet_dof
    boundary_data ncols ndofs :
  (shape1 local_facet_dof = Some ncols →
   Forall (λ r, length r = ncols ∧ Forall (λ k, k < ndofs) r)
     local_facet_dof →
   Forall (λ r, length r = ndofs) dofmap →
   Forall (λ cf, cf.1 < length dofmap ∧ cf.2 < length local_facet_dof)
     boundary_data →
   bfacet_dofmap dofmap local_facet_dof boundary_data
   = Some (facet_dofs dofmap local_facet_dof <$> boundary_data))
  ∧ ((∃ cf, cf ∈ boundary_data
        ∧ (length dofmap ≤ cf.1 ∨ length local_facet_dof ≤ cf.2)) →
     bfacet_dofmap dofmap local_facet_dof boundary_data = None).
Proof.
  split.
  - intros Hs Hlfd Hdm Hbd. unfold bfacet_dofmap. rewrite Hs.
    destruct (fill_bfacet_spec dofmap local_facet_dof ncols boundary_data 0
                (replicate (length boundary_data) (replicate ncols 0%Z)))
      as (B' & HB' & Hl & _ & _ & Hat).
    + eapply Forall_impl; [exact Hbd|]. intros [cell lf] [Hc Hf].
      simpl in *. eexists. by eapply facet_row_total.
    + rewrite length_replicate. lia.
    + rewrite HB'. f_equal. rewrite length_replicate in Hl.
      apply list_eq. intros j. rewrite list_lookup_fmap.
      destruct (boundary_data !! j) as [[cell lf]|] eqn:Ej; simpl.
      * pose proof (Hat j _ Ej) as Hj. simpl in Hj. rewrite Hj.
        rewrite Forall_lookup in Hbd. destruct (Hbd j _ Ej) as [Hc Hf].
        by eapply facet_row_total.
      * apply lookup_ge_None. apply lookup_ge_None in Ej. lia.
  - intros ([cell lf] & Hin & Hout). unfold bfacet_dofmap.
    destruct (shape1 local_facet_dof); [|done].
    eapply fill_bfacet_raises; [exact Hin|]. unfold facet_row. simpl in *.
    destruct Hout as [Hc|Hf].
    + by rewrite (lookup_ge_None_2 dofmap cell).
    + rewrite (lookup_ge_None_2 local_facet_dof lf) by done.
      by destruct (dofmap !! cell).
Qed.

Lemma bfacet_dofmap_gathers_facet_dofs_witness :
  bfacet_dofmap [[10; 11; 12; 13]; [20; 21; 22; 23]]%Z [[0; 1]; [1; 3]]
    [(1, 1); (0, 0)]
  = Some [[21; 23]; [10; 11]]%Z
  ∧ bfacet_dofmap [[10; 11; 12; 13]; [20; 21; 22; 23]]%Z [[0; 1]; [1; 3]]
      [(1, 1); (2, 0)]
    = None.
Proof.
  split.
  - apply (bfacet_dofmap_gathers_facet_dofs
             [[10; 11; 12; 13]; [20; 21; 22; 23]]%Z [[0; 1]; [1; 3]]
             [(1, 1); (0, 0)] 2 4); [reflexivity| | |].
    + repeat constructor; simpl; lia.
    + repeat constructor.
    + repeat constructor; simpl; lia.
  - apply (bfacet_dofmap_gathers_facet_dofs
             [[10; 11; 12; 13]; [20; 21; 22; 23]]%Z [[0; 1]; [1; 3]]
             [(1, 1); (2, 0)] 2 4).
    exists (2, 0). split; [|simpl; lia].
    apply list_elem_of_further, list_elem_of_here.
Defined.

End DemoFacts.
